(** * GC-safe memory helpers of the runtime (GCMemoryHelpers.cpp)

    A shallow embedding of the unmanaged GC memory helpers
    (src/Native/Runtime/GCMemoryHelpers.cpp) and of the properties the
    specification states about them.

    Memory is a byte-addressed map from addresses to byte values; every
    operation threads a state made of that memory and of the chronological
    log of the stores and write-barrier notifications performed so far.
    The entry points live in a small reader/state/abort monad: the reader
    part is the build flavour, which decides what [ASSERT] does.

    Pointers are addresses in [Z] and pointer arithmetic is exact, as C++
    only defines it inside an object; integer conversions at call
    boundaries ([int] to [size_t], [size_t] to [UInt32], [int] to [UInt8])
    are written out with their wrap-around. *)

From Stdlib Require Import ZArith List Bool Lia.
Import ListNotations.
Open Scope Z_scope.

(* ================================================================== *)
(** * Word model *)

(** The two pointer widths the source distinguishes with
    [#if (POINTER_SIZE == 8)]. *)
Inductive target : Type := Target32 | Target64.

Definition POINTER_SIZE (tg : target) : Z :=
  match tg with Target32 => 4 | Target64 => 8 end.

Definition UInt8 (x : Z) : Z := x mod 2 ^ 8.
Definition UInt32 (x : Z) : Z := x mod 2 ^ 32.
Definition UIntNative (tg : target) (x : Z) : Z := x mod 2 ^ (8 * POINTER_SIZE tg).
Definition size_t (tg : target) (x : Z) : Z := x mod 2 ^ (8 * POINTER_SIZE tg).

Definition INT_MAX : Z := 2 ^ 31 - 1.

Definition nullptr : Z := 0.

(** Modelled from the spec: the [IS_ALIGNED] macro of CommonMacros.h, which
    is not part of the sources at hand.  Section 3: an address is
    word-aligned if its numeric value is a multiple of the word size. *)
Definition IS_ALIGNED (addr size : Z) : bool := addr mod size =? 0.

(** Left shift and bitwise or on [UIntNative] operands. *)
Definition shl (tg : target) (x n : Z) : Z := UIntNative tg (Z.shiftl x n).

(** Byte [i] of a word value as it sits in memory (least significant byte at
    the lowest address). *)
Definition byte_of (v : Z) (i : nat) : Z :=
  Z.land (Z.shiftr v (8 * Z.of_nat i)) 255.

Definition bytes_of (k : nat) (v : Z) : list Z := map (byte_of v) (seq 0 k).

(* ================================================================== *)
(** * Memory, events and state *)

Definition Memory : Type := Z -> Z.

(** What an operation does to the outside world, in program order: a store
    of one or more bytes performed as one access, or a notification of the
    write-barrier recorder for the range [start, start + size). *)
Inductive event : Type :=
| Store (addr : Z) (bytes : list Z)
| Notify (start size : Z).

Record State : Type := mkState { mem_of : Memory; log_of : list event }.

Definition write_bytes (m : Memory) (a : Z) (bs : list Z) : Memory :=
  fun x =>
    if (a <=? x) && (x <? a + Z.of_nat (length bs))
    then nth (Z.to_nat (x - a)) bs 0
    else m x.

Definition read_bytes (m : Memory) (a : Z) (k : nat) : list Z :=
  map (fun i => m (a + Z.of_nat i)) (seq 0 k).

(** One store instruction: the bytes reach memory together and the access is
    appended to the log. *)
Definition store (a : Z) (bs : list Z) (st : State) : State :=
  {| mem_of := write_bytes (mem_of st) a bs;
     log_of := log_of st ++ [Store a bs] |}.

Definition is_store (e : event) : bool :=
  match e with Store _ _ => true | Notify _ _ => false end.

(** The ranges notified to the recorder, oldest first. *)
Fixpoint notified (l : list event) : list (Z * Z) :=
  match l with
  | [] => []
  | Store _ _ :: l' => notified l'
  | Notify s n :: l' => (s, n) :: notified l'
  end.

(** The stores of a log, oldest first. *)
Fixpoint stores (l : list event) : list (Z * list Z) :=
  match l with
  | [] => []
  | Store a bs :: l' => (a, bs) :: stores l'
  | Notify _ _ :: l' => stores l'
  end.

(** Address [a] lies in one of the notified ranges. *)
Definition covered (ns : list (Z * Z)) (a : Z) : Prop :=
  Exists (fun r => fst r <= a < fst r + snd r) ns.

(** Replaying a sequence of events on a memory. *)
Definition apply_event (m : Memory) (e : event) : Memory :=
  match e with
  | Store a bs => write_bytes m a bs
  | Notify _ _ => m
  end.

Definition replay (l : list event) (m : Memory) : Memory :=
  fold_left apply_event l m.

(* ================================================================== *)
(** * The inline helpers (GCMemoryHelpers.inl) *)

(** Modelled from the spec: the zoning of section 4.2, used by the inline
    helpers of GCMemoryHelpers.inl, which is not part of the sources at
    hand.  A range is cut in three zones: a leading partial-word zone that
    runs from the start to the first word boundary (empty when the start is
    aligned, and never longer than the range), a middle zone of whole words,
    and a trailing zone with the remainder below one word. *)
Record zones : Type := mkZones { lead : Z; words : Z; trail : Z }.

Definition zoning (tg : target) (start size : Z) : zones :=
  let w := POINTER_SIZE tg in
  let l := Z.min size ((w - start mod w) mod w) in
  {| lead := l; words := (size - l) / w; trail := (size - l) mod w |}.

(** [n] consecutive accesses of [width] bytes, as (offset, width) pairs. *)
Definition run (from width n : Z) : list (Z * Z) :=
  map (fun i => (from + Z.of_nat i * width, width)) (seq 0 (Z.to_nat n)).

(** Modelled from the spec: the accesses of one pass over a range, lowest
    address first; the leading and trailing zones byte by byte, the middle
    zone one word-sized access per word (section 4.2, (i)-(iii)). *)
Definition chunks (tg : target) (start size : Z) : list (Z * Z) :=
  let w := POINTER_SIZE tg in
  let z := zoning tg start size in
  run 0 1 (lead z)
  ++ run (lead z) w (words z)
  ++ run (lead z + words z * w) 1 (trail z).

Definition fill_chunk (base pv : Z) (st : State) (c : Z * Z) : State :=
  store (base + fst c) (bytes_of (Z.to_nat (snd c)) pv) st.

Definition copy_chunk (dest src : Z) (st : State) (c : Z * Z) : State :=
  store (dest + fst c)
        (read_bytes (mem_of st) (src + fst c) (Z.to_nat (snd c))) st.

(** Modelled from the spec: [InlineGCSafeFillMemory] of GCMemoryHelpers.inl
    (section 4.2, Granular Fill).  Every byte of the leading and trailing
    zones receives the low byte of the pattern, every word of the middle
    zone receives the pattern in a single word-sized store. *)
Definition InlineGCSafeFillMemory (tg : target) (mem size pv : Z)
  (st : State) : State :=
  fold_left (fill_chunk mem pv) (chunks tg mem size) st.

(** Modelled from the spec: [InlineForwardGCSafeCopy] of GCMemoryHelpers.inl
    (section 4.3, Safe Forward Copy): [len] bytes from [src] to [dest], low
    addresses first, one word at a time in the middle zone, with the
    lead/middle/trail zoning of the fill when the start is not aligned. *)
Definition InlineForwardGCSafeCopy (tg : target) (dest src len : Z)
  (st : State) : State :=
  fold_left (copy_chunk dest src) (chunks tg dest len) st.

(** Modelled from the spec: [InlineBackwardGCSafeCopy] of
    GCMemoryHelpers.inl (section 4.4, Safe Backward Copy): the identical
    word-granular copy, iterating from the highest address down to the
    lowest. *)
Definition InlineBackwardGCSafeCopy (tg : target) (dest src len : Z)
  (st : State) : State :=
  fold_left (copy_chunk dest src) (rev (chunks tg dest len)) st.

(** Modelled from the spec: [InlinedBulkWriteBarrier] of GCMemoryHelpers.inl
    (section 4.5, Write-Barrier Recorder): a side-effecting call without
    result or failure that notifies the collector of the range; the
    collector's bookkeeping is abstracted as the log of notified ranges.
    Its size parameter is a [UInt32], as the casts at its call sites and
    the signature of [RhpBulkWriteBarrier] show. *)
Definition InlinedBulkWriteBarrier (pMemStart cbMemSize : Z)
  (st : State) : State :=
  {| mem_of := mem_of st; log_of := log_of st ++ [Notify pMemStart cbMemSize] |}.

(* ================================================================== *)
(** * The monad of the entry points *)

Inductive build : Type := Debug | Release.

Inductive outcome (A : Type) : Type :=
| Abort
| Ret (a : A) (st : State).
Arguments Abort {A}.
Arguments Ret {A} a st.

Definition M (A : Type) : Type := build -> State -> outcome A.

Definition ret {A} (a : A) : M A := fun _ st => Ret a st.

Definition bind {A B} (m : M A) (k : A -> M B) : M B :=
  fun b st =>
    match m b st with
    | Abort => Abort
    | Ret a st' => k a b st'
    end.

Notation "m ;; k" := (bind m (fun _ => k))
  (at level 61, right associativity).

(** Running a helper that cannot fail. *)
Definition exec (f : State -> State) : M unit := fun _ st => Ret tt (f st).

(** Modelled from the spec: the [ASSERT] macro, defined outside the sources
    at hand.  Section 7: in debug builds the layer asserts and aborts, in
    release builds the condition is unchecked. *)
Definition ASSERT (cond : bool) : M unit :=
  fun b st =>
    match b with
    | Debug => if cond then Ret tt st else Abort
    | Release => Ret tt st
    end.

(* ================================================================== *)
(** * The entry points (GCMemoryHelpers.cpp) *)

Section EntryPoints.

Variable tg : target.

(** [bv << 7*8 | ... | bv << 1*8 | bv], the four high terms only when
    [POINTER_SIZE == 8]. *)
Definition replicate_byte (bv : Z) : Z :=
  let low :=
    Z.lor (shl tg bv (3 * 8))
      (Z.lor (shl tg bv (2 * 8)) (Z.lor (shl tg bv (1 * 8)) bv)) in
  if POINTER_SIZE tg =? 8
  then Z.lor (shl tg bv (7 * 8))
         (Z.lor (shl tg bv (6 * 8))
            (Z.lor (shl tg bv (5 * 8)) (Z.lor (shl tg bv (4 * 8)) low)))
  else low.

(** The word [pv] that [RhpInitMultibyte] hands to the fill. *)
Definition fill_pattern (c : Z) : Z :=
  let bv := UIntNative tg (UInt8 c) in
  if negb (bv =? 0) then replicate_byte bv else 0.

Definition RhpInitMultibyte (mem c size : Z) : M Z :=
  ASSERT (negb (mem =? nullptr)) ;;
  exec (InlineGCSafeFillMemory tg mem size (fill_pattern c)) ;;
  ret mem.

Definition memcpyGCRefs (dest src len : Z) : M Z :=
  ASSERT (negb (dest =? nullptr)) ;;
  ASSERT (negb (src =? nullptr)) ;;
  exec (InlineForwardGCSafeCopy tg dest src len) ;;
  ret dest.

Definition memcpyGCRefsWithWriteBarrier (dest src len : Z) : M Z :=
  ASSERT (negb (dest =? nullptr)) ;;
  ASSERT (negb (src =? nullptr)) ;;
  exec (InlineForwardGCSafeCopy tg dest src len) ;;
  exec (InlinedBulkWriteBarrier dest (UInt32 len)) ;;
  ret dest.

(** Which directional primitive a move uses. *)
Inductive direction : Type := Forward | Backward.

(** The test of [RhBulkMoveWithWriteBarrier]:
    [pDest <= pSrc || pSrc + cbDest <= pDest]. *)
Definition move_direction (pDest pSrc cbDest : Z) : direction :=
  if (pDest <=? pSrc) || (pSrc + cbDest <=? pDest) then Forward else Backward.

(** [cbDest] is an [int]; it reaches the copies as a [size_t] and the
    barrier as a [UInt32]. *)
Definition RhBulkMoveWithWriteBarrier (pDest pSrc cbDest : Z) : M unit :=
  match move_direction pDest pSrc cbDest with
  | Forward => exec (InlineForwardGCSafeCopy tg pDest pSrc (size_t tg cbDest))
  | Backward => exec (InlineBackwardGCSafeCopy tg pDest pSrc (size_t tg cbDest))
  end ;;
  exec (InlinedBulkWriteBarrier pDest (UInt32 cbDest)).

Definition GCSafeZeroMemory (dest len : Z) : M unit :=
  exec (InlineGCSafeFillMemory tg dest len 0).

Definition GCSafeCopyMemoryWithWriteBarrier (dest src len : Z) : M unit :=
  exec (InlineForwardGCSafeCopy tg dest src len) ;;
  exec (InlinedBulkWriteBarrier dest (UInt32 len)).

Definition RhpBulkWriteBarrier (pMemStart cbMemSize : Z) : M unit :=
  exec (InlinedBulkWriteBarrier pMemStart cbMemSize).

End EntryPoints.

(* ================================================================== *)
(** * Notions used to state the properties *)

(** A memory whose byte at address [a] is the low byte of [a], with nothing
    logged yet: the start state of the examples. *)
Definition sample_state : State :=
  {| mem_of := fun a => a mod 256; log_of := [] |}.

(** The log an operation leaves (empty when it aborted). *)
Definition final_log {A : Type} (o : outcome A) : list event :=
  match o with
  | Abort => []
  | Ret _ st => log_of st
  end.

(** [tiles p cs q]: the accesses [cs] are non-empty, adjacent, in increasing
    address order, and cover the offsets from [p] up to [q]. *)
Inductive tiles : Z -> list (Z * Z) -> Z -> Prop :=
| tiles_nil p : tiles p [] p
| tiles_cons p k cs q : 0 < k -> tiles (p + k) cs q -> tiles p ((p, k) :: cs) q.

(** The bytes of the fill pattern compared with the fill byte, for each of
    the 256 byte values. *)
Definition pattern_check (tg : target) : bool :=
  forallb
    (fun n =>
       forallb (fun i => byte_of (fill_pattern tg (Z.of_nat n)) i =? Z.of_nat n)
               (seq 0 (Z.to_nat (POINTER_SIZE tg))))
    (seq 0 256).

(** The copy a move performs, by direction. *)
Definition move_copy (tg : target) (pDest pSrc cbDest : Z) : State -> State :=
  match move_direction pDest pSrc cbDest with
  | Forward => InlineForwardGCSafeCopy tg pDest pSrc (size_t tg cbDest)
  | Backward => InlineBackwardGCSafeCopy tg pDest pSrc (size_t tg cbDest)
  end.

(** The reference semantics of a move, in the words of the specification:
    read all of [src] into a temporary buffer first, then write the buffer
    to [dest]. *)
Definition reference_move (m : Memory) (dest src len : Z) : Memory :=
  let buffer := read_bytes m src (Z.to_nat len) in
  write_bytes m dest buffer.

(** An operation started in [st] ended normally and the ranges it notified
    to the recorder cover every address of [start, start + len). *)
Definition barrier_covers {A : Type} (st : State) (o : outcome A)
  (start len : Z) : Prop :=
  exists a st' evs,
    o = Ret a st'
    /\ log_of st' = log_of st ++ evs
    /\ forall x, start <= x < start + len -> covered (notified evs) x.

(** An operation started in [st] ended normally and notified exactly the one
    range [start, start + size). *)
Definition notifies_exactly {A : Type} (st : State) (o : outcome A)
  (start size : Z) : Prop :=
  exists a st' evs,
    o = Ret a st'
    /\ log_of st' = log_of st ++ evs
    /\ notified evs = [(start, size)].

(** The two separate calls of the specification: the forward copy, then the
    standalone recorder entry point on the destination, whose size
    parameter is a [UInt32]; the result is the one of the copy. *)
Definition copy_then_barrier (tg : target) (dest src len : Z) : M Z :=
  bind (memcpyGCRefs tg dest src len)
       (fun r => RhpBulkWriteBarrier dest (UInt32 len) ;; ret r).

(** The operation, if it ended normally, logged no store and left every
    byte of memory as it was. *)
Definition no_writes {A : Type} (st : State) (o : outcome A) : Prop :=
  match o with
  | Abort => True
  | Ret _ st' =>
      (exists evs, log_of st' = log_of st ++ evs /\ stores evs = [])
      /\ mem_of st' = mem_of st
  end.

(** Running the operation a second time, from the state the first run left,
    ends as the first run did and leaves the same memory. *)
Definition same_memory_twice {A : Type} (op : M A) (b : build) (st : State)
  : Prop :=
  match op b st with
  | Abort => True
  | Ret _ st1 =>
      match op b st1 with
      | Abort => False
      | Ret _ st2 => forall x, mem_of st2 x = mem_of st1 x
      end
  end.

(** [word_run w a evs]: the events [evs] are stores of [w] bytes each, the
    first at address [a], each next one [w] bytes higher: one store per
    word, no word stored twice. *)
Inductive word_run (w : Z) : Z -> list event -> Prop :=
| word_run_nil a : word_run w a []
| word_run_cons a bs evs :
    Z.of_nat (length bs) = w ->
    word_run w (a + w) evs ->
    word_run w a (Store a bs :: evs).

(** An operation over the [n] words from [base] ended normally, stored each
    word exactly once with one word-sized store, and a reader sampling any
    of those words between any two of its stores (after any prefix of them)
    reads the word as it was before the call or as it is after it. *)
Definition word_atomic {A : Type} (st : State) (o : outcome A)
  (w base : Z) (n : nat) : Prop :=
  exists a st' evs,
    o = Ret a st'
    /\ log_of st' = log_of st ++ evs
    /\ word_run w base evs
    /\ length evs = n
    /\ forall k j, (j < n)%nat ->
         read_bytes (replay (firstn k evs) (mem_of st))
                    (base + Z.of_nat j * w) (Z.to_nat w)
         = read_bytes (mem_of st) (base + Z.of_nat j * w) (Z.to_nat w)
         \/ read_bytes (replay (firstn k evs) (mem_of st))
                       (base + Z.of_nat j * w) (Z.to_nat w)
            = read_bytes (mem_of st') (base + Z.of_nat j * w) (Z.to_nat w).

(** The word whose bytes are all 1: [0x01010101] or [0x0101010101010101]. *)
Definition byte_ones (tg : target) : Z :=
  (2 ^ (8 * POINTER_SIZE tg) - 1) / 255.

(** The closed form of the fill pattern compared with the code's shifts, for
    each of the 256 byte values. *)
Definition pattern_product_check (tg : target) : bool :=
  forallb
    (fun n =>
       (fill_pattern tg (Z.of_nat n) =? Z.of_nat n * byte_ones tg)
       && (replicate_byte tg (Z.of_nat n) =? Z.of_nat n * byte_ones tg))
    (seq 0 256).

(** A store that cannot tear a reference: a single byte, or a whole word at
    a word-aligned address.  Notifications are not stores. *)
Definition gc_safe_store (tg : target) (e : event) : bool :=
  match e with
  | Store a bs =>
      (length bs =? 1)%nat
      || ((Z.of_nat (length bs) =? POINTER_SIZE tg)
          && (a mod POINTER_SIZE tg =? 0))
  | Notify _ _ => true
  end.

(** Event [e] is the store of the access [c] of a pass based at [base]. *)
Definition store_matches (base : Z) (c : Z * Z) (e : event) : Prop :=
  exists bs, e = Store (base + fst c) bs /\ length bs = Z.to_nat (snd c).

(** An operation over the range [base, base + size) ended normally; each
    store it logged is a single byte or a whole word at a word-aligned
    address, and every word-aligned word that lies inside the range was
    stored by a word-sized store at its address. *)
Definition stores_whole_words {A : Type} (tg : target) (st : State)
  (o : outcome A) (base size : Z) : Prop :=
  exists r st' evs,
    o = Ret r st'
    /\ log_of st' = log_of st ++ evs
    /\ forallb (gc_safe_store tg) evs = true
    /\ forall a,
         a mod POINTER_SIZE tg = 0 ->
         base <= a -> a + POINTER_SIZE tg <= base + size ->
         exists bs, In (Store a bs) evs
                    /\ Z.of_nat (length bs) = POINTER_SIZE tg.

(* ================================================================== *)
(** * Memory lemmas *)

Lemma POINTER_SIZE_pos tg : 0 < POINTER_SIZE tg.
Proof. destruct tg; simpl; lia. Qed.

Lemma write_bytes_in m a bs x :
  a <= x < a + Z.of_nat (length bs) ->
  write_bytes m a bs x = nth (Z.to_nat (x - a)) bs 0.
Proof.
  intros H. unfold write_bytes.
  replace ((a <=? x) && (x <? a + Z.of_nat (length bs))) with true; [reflexivity|].
  symmetry. apply andb_true_iff. split; [apply Z.leb_le | apply Z.ltb_lt]; lia.
Qed.

Lemma write_bytes_out m a bs x :
  x < a \/ a + Z.of_nat (length bs) <= x ->
  write_bytes m a bs x = m x.
Proof.
  intros H. unfold write_bytes.
  destruct (a <=? x) eqn:E1; [|reflexivity].
  destruct (x <? a + Z.of_nat (length bs)) eqn:E2; [|reflexivity].
  apply Z.leb_le in E1. apply Z.ltb_lt in E2. lia.
Qed.

Lemma nth_map_seq {A : Type} (f : nat -> A) k i d :
  (i < k)%nat -> nth i (map f (seq 0 k)) d = f i.
Proof.
  intros H. transitivity (f (nth i (seq 0 k) 0%nat)).
  - rewrite <- (map_nth f). apply nth_indep.
    now rewrite length_map, length_seq.
  - now rewrite seq_nth.
Qed.

Lemma read_bytes_length m a k : length (read_bytes m a k) = k.
Proof. unfold read_bytes. now rewrite length_map, length_seq. Qed.

Lemma read_bytes_nth m a k i :
  (i < k)%nat -> nth i (read_bytes m a k) 0 = m (a + Z.of_nat i).
Proof.
  intros H. unfold read_bytes. now rewrite nth_map_seq.
Qed.

Lemma bytes_of_length k v : length (bytes_of k v) = k.
Proof. unfold bytes_of. now rewrite length_map, length_seq. Qed.

Lemma bytes_of_nth k v i :
  (i < k)%nat -> nth i (bytes_of k v) 0 = byte_of v i.
Proof.
  intros H. unfold bytes_of. now rewrite nth_map_seq.
Qed.

(** A chunk copy moves [k] bytes from [s] to [d], reading them all before
    writing any. *)
Lemma copy_bytes_at m d s k x :
  0 <= k ->
  write_bytes m d (read_bytes m s (Z.to_nat k)) x =
  if (d <=? x) && (x <? d + k) then m (s + (x - d)) else m x.
Proof.
  intros Hk.
  destruct ((d <=? x) && (x <? d + k)) eqn:E.
  - apply andb_true_iff in E. destruct E as [E1 E2].
    apply Z.leb_le in E1. apply Z.ltb_lt in E2.
    rewrite write_bytes_in by (rewrite read_bytes_length; lia).
    rewrite read_bytes_nth by lia. f_equal. lia.
  - apply write_bytes_out. rewrite read_bytes_length.
    apply andb_false_iff in E. destruct E as [E|E];
      [apply Z.leb_gt in E | apply Z.ltb_ge in E]; lia.
Qed.

Lemma in_range_true a b x : a <= x < b -> (a <=? x) && (x <? b) = true.
Proof.
  intros H. apply andb_true_iff. split; [apply Z.leb_le | apply Z.ltb_lt]; lia.
Qed.

Lemma in_range_false a b x : x < a \/ b <= x -> (a <=? x) && (x <? b) = false.
Proof.
  intros H. apply andb_false_iff.
  destruct (Z_lt_ge_dec x a); [left; apply Z.leb_gt | right; apply Z.ltb_ge]; lia.
Qed.

(** Rewrites a range test once its outcome is known by arithmetic. *)
Ltac range_test :=
  repeat match goal with
  | |- context [(?a <=? ?x) && (?x <? ?b)] =>
      first [ rewrite (in_range_true a b x) by lia
            | rewrite (in_range_false a b x) by lia ]
  end.

(* ================================================================== *)
(** * Logs *)

Lemma notified_app l1 l2 : notified (l1 ++ l2) = notified l1 ++ notified l2.
Proof.
  induction l1 as [|[a bs|s n] l1 IH]; simpl; [reflexivity|assumption|now f_equal].
Qed.

Lemma stores_app l1 l2 : stores (l1 ++ l2) = stores l1 ++ stores l2.
Proof.
  induction l1 as [|[a bs|s n] l1 IH]; simpl; [reflexivity|now f_equal|assumption].
Qed.

Lemma notified_only_stores l : forallb is_store l = true -> notified l = [].
Proof.
  induction l as [|[a bs|s n] l IH]; simpl; intros H;
    [reflexivity | now apply IH | discriminate].
Qed.

Lemma replay_app l1 l2 m : replay (l1 ++ l2) m = replay l2 (replay l1 m).
Proof. unfold replay. apply fold_left_app. Qed.

(** A loop whose every iteration is one store appends one [Store] event per
    iteration, and its effect on memory is the replay of those events. *)
Lemma fold_store_log {C : Type} (f : State -> C -> State) :
  (forall st c, exists a bs, f st c = store a bs st) ->
  forall cs st,
  exists evs,
    log_of (fold_left f cs st) = log_of st ++ evs
    /\ forallb is_store evs = true
    /\ length evs = length cs
    /\ mem_of (fold_left f cs st) = replay evs (mem_of st).
Proof.
  intros Hf. induction cs as [|c cs IH]; intros st; simpl.
  - exists []. rewrite app_nil_r. repeat split; reflexivity.
  - destruct (Hf st c) as (a & bs & E).
    destruct (IH (f st c)) as (evs & Hl & Hs & Hn & Hm).
    exists (Store a bs :: evs). rewrite Hl, Hm, E. simpl.
    rewrite <- app_assoc. simpl. repeat split; auto.
Qed.

Lemma fill_chunk_is_store base pv st c :
  exists a bs, fill_chunk base pv st c = store a bs st.
Proof. unfold fill_chunk. eauto. Qed.

Lemma copy_chunk_is_store dest src st c :
  exists a bs, copy_chunk dest src st c = store a bs st.
Proof. unfold copy_chunk. eauto. Qed.

(* ================================================================== *)
(** * Zoning *)

Lemma tiles_le p cs q : tiles p cs q -> p <= q.
Proof. induction 1; lia. Qed.

Lemma tiles_app p cs1 q cs2 r :
  tiles p cs1 q -> tiles q cs2 r -> tiles p (cs1 ++ cs2) r.
Proof.
  induction 1; intros H2; simpl; [assumption|].
  constructor; auto.
Qed.

Lemma run_shift from width n :
  run from width (Z.of_nat (S n)) =
  (from, width) :: run (from + width) width (Z.of_nat n).
Proof.
  unfold run. rewrite !Nat2Z.id. simpl. f_equal.
  - f_equal. lia.
  - rewrite <- seq_shift, map_map. apply map_ext. intros i. f_equal. lia.
Qed.

Lemma tiles_run_nat width n : 0 < width ->
  forall from, tiles from (run from width (Z.of_nat n)) (from + Z.of_nat n * width).
Proof.
  intros Hw. induction n as [|n IH]; intros from.
  - replace (from + Z.of_nat 0 * width) with from by lia. constructor.
  - rewrite run_shift. constructor; [assumption|].
    replace (from + Z.of_nat (S n) * width)
      with (from + width + Z.of_nat n * width) by lia.
    apply IH.
Qed.

Lemma tiles_run from width n q : 0 < width -> 0 <= n ->
  q = from + n * width -> tiles from (run from width n) q.
Proof.
  intros Hw Hn ->. rewrite <- (Z2Nat.id n) by assumption.
  now apply tiles_run_nat.
Qed.

Lemma run_width from width n : Forall (fun c => snd c = width) (run from width n).
Proof.
  unfold run. apply Forall_forall. intros c Hc.
  apply in_map_iff in Hc. destruct Hc as (i & <- & _). reflexivity.
Qed.

Lemma zoning_lead_bounds tg start size : 0 <= size ->
  0 <= lead (zoning tg start size) <= size.
Proof.
  intros H. simpl. pose proof (POINTER_SIZE_pos tg) as Hw.
  pose proof (Z.mod_pos_bound (POINTER_SIZE tg - start mod POINTER_SIZE tg)
                _ Hw). lia.
Qed.

Lemma zoning_sum tg start size :
  lead (zoning tg start size)
  + words (zoning tg start size) * POINTER_SIZE tg
  + trail (zoning tg start size) = size.
Proof.
  simpl. pose proof (POINTER_SIZE_pos tg) as Hw.
  set (l := Z.min size _).
  pose proof (Z.div_mod (size - l) (POINTER_SIZE tg)). lia.
Qed.

(** The accesses of a pass tile the whole range. *)
Lemma tiles_chunks tg start size : 0 <= size ->
  tiles 0 (chunks tg start size) size.
Proof.
  intros Hs. pose proof (POINTER_SIZE_pos tg) as Hw.
  pose proof (zoning_lead_bounds tg start size Hs) as Hl.
  pose proof (zoning_sum tg start size) as Hsum.
  unfold chunks.
  set (z := zoning tg start size) in *.
  assert (Hwords : 0 <= words z).
  { subst z. simpl. apply Z.div_pos; [|assumption]. simpl in Hl. lia. }
  assert (Htrail : 0 <= trail z).
  { subst z. simpl. apply Z.mod_pos_bound. assumption. }
  apply tiles_app with (q := lead z); [apply tiles_run; lia|].
  apply tiles_app with (q := lead z + words z * POINTER_SIZE tg);
    apply tiles_run; lia.
Qed.

(** Every access is a byte or a word. *)
Lemma chunks_width tg start size :
  Forall (fun c => snd c = 1 \/ snd c = POINTER_SIZE tg) (chunks tg start size).
Proof.
  unfold chunks. rewrite !Forall_app. repeat split;
    (eapply Forall_impl; [|apply run_width]); simpl; intros c Hc; auto.
Qed.

Lemma zoning_empty tg start : zoning tg start 0 = mkZones 0 0 0.
Proof.
  unfold zoning. pose proof (POINTER_SIZE_pos tg) as Hw.
  pose proof (Z.mod_pos_bound (POINTER_SIZE tg - start mod POINTER_SIZE tg)
                _ Hw).
  cbv zeta.
  replace (Z.min 0 ((POINTER_SIZE tg - start mod POINTER_SIZE tg)
                      mod POINTER_SIZE tg)) with 0 by lia.
  change (0 - 0) with 0. rewrite Z.div_0_l, Z.mod_0_l by lia. reflexivity.
Qed.

Lemma chunks_empty tg start : chunks tg start 0 = [].
Proof. unfold chunks. rewrite zoning_empty. reflexivity. Qed.

(* ================================================================== *)
(** * The helpers on memory *)

(** A pass that stores a pattern whose bytes are all [v]. *)
Lemma fill_tiles base pv v w p cs q :
  tiles p cs q ->
  Forall (fun c => snd c = 1 \/ snd c = w) cs ->
  0 < w ->
  (forall i, (i < Z.to_nat w)%nat -> byte_of pv i = v) ->
  forall st x,
    mem_of (fold_left (fill_chunk base pv) cs st) x =
    if (base + p <=? x) && (x <? base + q) then v else mem_of st x.
Proof.
  intros Ht. induction Ht as [p | p k cs q Hk Ht IH]; intros Hw Hpos Hv st x.
  - simpl. now range_test.
  - pose proof (tiles_le _ _ _ Ht) as Hle.
    inversion Hw as [|c cs' Hc Hcs]; subst. simpl in Hc.
    simpl fold_left. rewrite IH by assumption.
    unfold fill_chunk, store. cbn [mem_of fst snd].
    destruct (Z_lt_ge_dec x (base + p)) as [H1|H1].
    { range_test. apply write_bytes_out. lia. }
    destruct (Z_lt_ge_dec x (base + (p + k))) as [H2|H2].
    { range_test. rewrite write_bytes_in by (rewrite bytes_of_length; lia).
      rewrite bytes_of_nth by lia. apply Hv. lia. }
    destruct (Z_lt_ge_dec x (base + q)) as [H3|H3]; range_test.
    + reflexivity.
    + apply write_bytes_out. rewrite bytes_of_length. lia.
Qed.

(** A low-to-high pass copies correctly when the destination does not start
    inside the part of the source still to be read. *)
Lemma forward_tiles dest src p cs q :
  tiles p cs q ->
  dest <= src \/ src + q <= dest + p ->
  forall st x,
    mem_of (fold_left (copy_chunk dest src) cs st) x =
    if (dest + p <=? x) && (x <? dest + q)
    then mem_of st (src + (x - dest)) else mem_of st x.
Proof.
  intros Ht. induction Ht as [p | p k cs q Hk Ht IH]; intros Hov st x.
  - simpl. now range_test.
  - pose proof (tiles_le _ _ _ Ht) as Hle.
    simpl fold_left. rewrite IH by lia.
    unfold copy_chunk, store. cbn [mem_of fst snd].
    rewrite !copy_bytes_at by lia.
    destruct (Z_lt_ge_dec x (dest + p)) as [H1|H1].
    { now range_test. }
    destruct (Z_lt_ge_dec x (dest + (p + k))) as [H2|H2].
    { range_test. f_equal. lia. }
    destruct (Z_lt_ge_dec x (dest + q)) as [H3|H3]; now range_test.
Qed.

(** A high-to-low pass copies correctly when the source does not start
    inside the part of the destination written first. *)
Lemma backward_tiles dest src p cs q :
  tiles p cs q ->
  src <= dest \/ dest + q <= src + p ->
  forall st x,
    mem_of (fold_left (copy_chunk dest src) (rev cs) st) x =
    if (dest + p <=? x) && (x <? dest + q)
    then mem_of st (src + (x - dest)) else mem_of st x.
Proof.
  intros Ht. induction Ht as [p | p k cs q Hk Ht IH]; intros Hov st x.
  - simpl. now range_test.
  - pose proof (tiles_le _ _ _ Ht) as Hle.
    simpl rev. rewrite fold_left_app. simpl fold_left.
    unfold copy_chunk at 1. unfold store. cbn [mem_of fst snd].
    rewrite copy_bytes_at by lia.
    rewrite !IH by lia.
    destruct (Z_lt_ge_dec x (dest + p)) as [H1|H1].
    { now range_test. }
    destruct (Z_lt_ge_dec x (dest + (p + k))) as [H2|H2].
    { range_test. f_equal. lia. }
    destruct (Z_lt_ge_dec x (dest + q)) as [H3|H3]; now range_test.
Qed.

Lemma InlineForwardGCSafeCopy_mem tg dest src len st x :
  0 <= len ->
  dest <= src \/ src + len <= dest ->
  mem_of (InlineForwardGCSafeCopy tg dest src len st) x =
  if (dest <=? x) && (x <? dest + len)
  then mem_of st (src + (x - dest)) else mem_of st x.
Proof.
  intros Hl Hov. unfold InlineForwardGCSafeCopy.
  rewrite (forward_tiles dest src 0 _ len (tiles_chunks tg dest len Hl)) by lia.
  now rewrite Z.add_0_r.
Qed.

Lemma InlineBackwardGCSafeCopy_mem tg dest src len st x :
  0 <= len ->
  src <= dest \/ dest + len <= src ->
  mem_of (InlineBackwardGCSafeCopy tg dest src len st) x =
  if (dest <=? x) && (x <? dest + len)
  then mem_of st (src + (x - dest)) else mem_of st x.
Proof.
  intros Hl Hov. unfold InlineBackwardGCSafeCopy.
  rewrite (backward_tiles dest src 0 _ len (tiles_chunks tg dest len Hl)) by lia.
  now rewrite Z.add_0_r.
Qed.

Lemma InlineGCSafeFillMemory_mem tg mem size pv v st x :
  0 <= size ->
  (forall i, (i < Z.to_nat (POINTER_SIZE tg))%nat -> byte_of pv i = v) ->
  mem_of (InlineGCSafeFillMemory tg mem size pv st) x =
  if (mem <=? x) && (x <? mem + size) then v else mem_of st x.
Proof.
  intros Hs Hv. unfold InlineGCSafeFillMemory.
  rewrite (fill_tiles mem pv v (POINTER_SIZE tg) 0 _ size
             (tiles_chunks tg mem size Hs) (chunks_width tg mem size)
             (POINTER_SIZE_pos tg) Hv).
  now rewrite Z.add_0_r.
Qed.

(** The helpers only store: they leave the notified ranges alone, and their
    effect on memory is the replay of the stores they log. *)
Lemma InlineForwardGCSafeCopy_log tg dest src len st :
  exists evs,
    log_of (InlineForwardGCSafeCopy tg dest src len st) = log_of st ++ evs
    /\ forallb is_store evs = true
    /\ length evs = length (chunks tg dest len)
    /\ mem_of (InlineForwardGCSafeCopy tg dest src len st)
       = replay evs (mem_of st).
Proof.
  unfold InlineForwardGCSafeCopy.
  apply (fold_store_log (copy_chunk dest src) (copy_chunk_is_store dest src)).
Qed.

Lemma InlineBackwardGCSafeCopy_log tg dest src len st :
  exists evs,
    log_of (InlineBackwardGCSafeCopy tg dest src len st) = log_of st ++ evs
    /\ forallb is_store evs = true
    /\ length evs = length (chunks tg dest len)
    /\ mem_of (InlineBackwardGCSafeCopy tg dest src len st)
       = replay evs (mem_of st).
Proof.
  unfold InlineBackwardGCSafeCopy.
  destruct (fold_store_log (copy_chunk dest src) (copy_chunk_is_store dest src)
              (rev (chunks tg dest len)) st) as (evs & H1 & H2 & H3 & H4).
  exists evs. rewrite length_rev in H3. auto.
Qed.

Lemma InlineGCSafeFillMemory_log tg mem size pv st :
  exists evs,
    log_of (InlineGCSafeFillMemory tg mem size pv st) = log_of st ++ evs
    /\ forallb is_store evs = true
    /\ length evs = length (chunks tg mem size)
    /\ mem_of (InlineGCSafeFillMemory tg mem size pv st)
       = replay evs (mem_of st).
Proof.
  unfold InlineGCSafeFillMemory.
  apply (fold_store_log (fill_chunk mem pv) (fill_chunk_is_store mem pv)).
Qed.

(* ================================================================== *)
(** * The fill pattern *)

Lemma UInt8_bounds c : 0 <= UInt8 c < 256.
Proof. unfold UInt8. apply Z.mod_pos_bound. reflexivity. Qed.

Lemma UInt8_idem c : UInt8 (UInt8 c) = UInt8 c.
Proof. unfold UInt8. apply Z.mod_mod. discriminate. Qed.

Lemma fill_pattern_low tg c : fill_pattern tg c = fill_pattern tg (UInt8 c).
Proof. unfold fill_pattern. now rewrite UInt8_idem. Qed.

Lemma pattern_check_ok tg : pattern_check tg = true.
Proof. destruct tg; vm_compute; reflexivity. Qed.

Lemma fill_pattern_bytes tg c i :
  (i < Z.to_nat (POINTER_SIZE tg))%nat ->
  byte_of (fill_pattern tg c) i = UInt8 c.
Proof.
  intros Hi. rewrite fill_pattern_low.
  pose proof (UInt8_bounds c) as Hb.
  pose proof (pattern_check_ok tg) as H. unfold pattern_check in H.
  rewrite forallb_forall in H.
  specialize (H (Z.to_nat (UInt8 c))).
  rewrite forallb_forall in H.
  rewrite Z2Nat.id in H by lia.
  apply Z.eqb_eq. apply H; apply in_seq; lia.
Qed.

(* ================================================================== *)
(** * Running the entry points *)

Lemma size_t_int tg n : 0 <= n <= INT_MAX -> size_t tg n = n.
Proof.
  intros H. unfold size_t. apply Z.mod_small.
  unfold INT_MAX in H. destruct tg; simpl POINTER_SIZE; lia.
Qed.

Lemma UInt32_small n : 0 <= n < 2 ^ 32 -> UInt32 n = n.
Proof. intros H. unfold UInt32. now apply Z.mod_small. Qed.

Lemma UInt32_int n : 0 <= n <= INT_MAX -> UInt32 n = n.
Proof. intros H. apply UInt32_small. unfold INT_MAX in H. lia. Qed.

Lemma move_direction_forward d s n :
  move_direction d s n = Forward <-> d <= s \/ s + n <= d.
Proof.
  unfold move_direction.
  destruct (d <=? s) eqn:E1; destruct (s + n <=? d) eqn:E2; simpl;
    rewrite ?Z.leb_le, ?Z.leb_gt in *; split; intros H;
    try reflexivity; try discriminate; lia.
Qed.

Lemma move_direction_backward d s n :
  move_direction d s n = Backward <-> s < d < s + n.
Proof.
  unfold move_direction.
  destruct (d <=? s) eqn:E1; destruct (s + n <=? d) eqn:E2; simpl;
    rewrite ?Z.leb_le, ?Z.leb_gt in *; split; intros H;
    try reflexivity; try discriminate; lia.
Qed.

Lemma RhBulkMoveWithWriteBarrier_run tg pDest pSrc cbDest b st :
  RhBulkMoveWithWriteBarrier tg pDest pSrc cbDest b st =
  Ret tt (InlinedBulkWriteBarrier pDest (UInt32 cbDest)
            (move_copy tg pDest pSrc cbDest st)).
Proof.
  unfold RhBulkMoveWithWriteBarrier, move_copy.
  destruct (move_direction pDest pSrc cbDest); reflexivity.
Qed.

Lemma memcpyGCRefs_run tg dest src len b st :
  b = Release \/ (dest <> nullptr /\ src <> nullptr) ->
  memcpyGCRefs tg dest src len b st =
  Ret dest (InlineForwardGCSafeCopy tg dest src len st).
Proof.
  intros [-> | [Hd Hs]]; [reflexivity|].
  apply Z.eqb_neq in Hd, Hs.
  unfold memcpyGCRefs, bind, ASSERT, exec, ret. rewrite Hd, Hs.
  destruct b; reflexivity.
Qed.

Lemma memcpyGCRefsWithWriteBarrier_run tg dest src len b st :
  b = Release \/ (dest <> nullptr /\ src <> nullptr) ->
  memcpyGCRefsWithWriteBarrier tg dest src len b st =
  Ret dest (InlinedBulkWriteBarrier dest (UInt32 len)
              (InlineForwardGCSafeCopy tg dest src len st)).
Proof.
  intros [-> | [Hd Hs]]; [reflexivity|].
  apply Z.eqb_neq in Hd, Hs.
  unfold memcpyGCRefsWithWriteBarrier, bind, ASSERT, exec, ret. rewrite Hd, Hs.
  destruct b; reflexivity.
Qed.

Lemma RhpInitMultibyte_run tg mem c size b st :
  b = Release \/ mem <> nullptr ->
  RhpInitMultibyte tg mem c size b st =
  Ret mem (InlineGCSafeFillMemory tg mem size (fill_pattern tg c) st).
Proof.
  intros [-> | Hm]; [reflexivity|].
  apply Z.eqb_neq in Hm.
  unfold RhpInitMultibyte, bind, ASSERT, exec, ret. rewrite Hm.
  destruct b; reflexivity.
Qed.

(** The memory a move leaves, whichever direction it took. *)
Lemma move_copy_mem tg pDest pSrc cbDest st x :
  0 <= cbDest <= INT_MAX ->
  mem_of (move_copy tg pDest pSrc cbDest st) x =
  if (pDest <=? x) && (x <? pDest + cbDest)
  then mem_of st (pSrc + (x - pDest)) else mem_of st x.
Proof.
  intros Hn. unfold move_copy. rewrite size_t_int by assumption.
  destruct (move_direction pDest pSrc cbDest) eqn:E.
  - apply move_direction_forward in E.
    apply InlineForwardGCSafeCopy_mem; lia.
  - apply move_direction_backward in E.
    apply InlineBackwardGCSafeCopy_mem; lia.
Qed.

(* ================================================================== *)
(** * The model on concrete inputs *)

Example chunks_unaligned :
  chunks Target64 4093 21
  = [(0, 1); (1, 1); (2, 1); (3, 8); (11, 8); (19, 1); (20, 1)].
Proof. reflexivity. Qed.

Example chunks_aligned_32 : chunks Target32 4096 8 = [(0, 4); (4, 4)].
Proof. reflexivity. Qed.

Example fill_pattern_64 : fill_pattern Target64 (-2) = 0xFEFEFEFEFEFEFEFE.
Proof. reflexivity. Qed.

Example fill_pattern_32 : fill_pattern Target32 (-2) = 0xFEFEFEFE.
Proof. reflexivity. Qed.

Example fill_pattern_zero : fill_pattern Target64 256 = 0.
Proof. reflexivity. Qed.

Example fill_unaligned_log :
  final_log (RhpInitMultibyte Target32 4094 (-1) 7 Debug sample_state)
  = [Store 4094 [255]; Store 4095 [255]; Store 4096 [255; 255; 255; 255];
     Store 4100 [255]].
Proof. reflexivity. Qed.

Example fill_null_debug :
  RhpInitMultibyte Target64 nullptr 0 8 Debug sample_state = Abort.
Proof. reflexivity. Qed.

(** Destination above the source inside its range: the high word goes
    first. *)
Example move_backward_log :
  final_log (RhBulkMoveWithWriteBarrier Target64 4104 4096 16 Debug sample_state)
  = [Store 4112 [8; 9; 10; 11; 12; 13; 14; 15];
     Store 4104 [0; 1; 2; 3; 4; 5; 6; 7];
     Notify 4104 16].
Proof. reflexivity. Qed.

(** Destination below the source: the low word goes first. *)
Example move_forward_log :
  final_log (RhBulkMoveWithWriteBarrier Target64 4096 4104 16 Debug sample_state)
  = [Store 4096 [8; 9; 10; 11; 12; 13; 14; 15];
     Store 4104 [16; 17; 18; 19; 20; 21; 22; 23];
     Notify 4096 16].
Proof. reflexivity. Qed.

(* ================================================================== *)
(** * Move correctness under overlap *)

(** C1.  For every destination, source and length of zero or more bytes, in
    every relative placement of the two ranges, [RhBulkMoveWithWriteBarrier]
    returns, and the memory it leaves is the one of the reference move that
    reads all of the source into a buffer before writing it to the
    destination; in particular byte [i] of the destination holds what byte
    [i] of the source held before the call. *)
Theorem RhBulkMoveWithWriteBarrier_is_reference_move
  tg b pDest pSrc cbDest st :
  0 <= cbDest <= INT_MAX ->
  exists st',
    RhBulkMoveWithWriteBarrier tg pDest pSrc cbDest b st = Ret tt st'
    /\ (forall x, mem_of st' x
                  = reference_move (mem_of st) pDest pSrc cbDest x)
    /\ (forall i, 0 <= i < cbDest ->
                  mem_of st' (pDest + i) = mem_of st (pSrc + i)).
Proof.
  intros Hn. eexists. split; [apply RhBulkMoveWithWriteBarrier_run|].
  cbn [InlinedBulkWriteBarrier mem_of]. split.
  - intros x. rewrite move_copy_mem by assumption.
    unfold reference_move. cbv zeta. rewrite copy_bytes_at by lia. reflexivity.
  - intros i Hi. rewrite move_copy_mem by assumption.
    range_test. f_equal. lia.
Qed.

Lemma RhBulkMoveWithWriteBarrier_is_reference_move_witness :
  0 <= 24 <= INT_MAX
  /\ exists st',
       RhBulkMoveWithWriteBarrier Target64 4104 4096 24 Debug sample_state
       = Ret tt st'
       /\ (forall x, mem_of st' x
                     = reference_move (mem_of sample_state) 4104 4096 24 x)
       /\ (forall i, 0 <= i < 24 ->
                     mem_of st' (4104 + i) = mem_of sample_state (4096 + i)).
Proof.
  split; [unfold INT_MAX; lia|].
  apply (RhBulkMoveWithWriteBarrier_is_reference_move
           Target64 Debug 4104 4096 24 sample_state).
  unfold INT_MAX; lia.
Defined.

(* ================================================================== *)
(** * Direction selection *)

(** C2.  The dispatcher selects the backward copy exactly when
    [pSrc < pDest < pSrc + cbDest], and the forward copy exactly when
    [pDest <= pSrc] or [pSrc + cbDest <= pDest]; the move runs the selected
    primitive and then the barrier. *)
Theorem RhBulkMoveWithWriteBarrier_direction tg b pDest pSrc cbDest st :
  (move_direction pDest pSrc cbDest = Backward
   <-> pSrc < pDest < pSrc + cbDest)
  /\ (move_direction pDest pSrc cbDest = Forward
      <-> (pDest <= pSrc \/ pSrc + cbDest <= pDest))
  /\ RhBulkMoveWithWriteBarrier tg pDest pSrc cbDest b st =
     Ret tt (InlinedBulkWriteBarrier pDest (UInt32 cbDest)
               ((if (pSrc <? pDest) && (pDest <? pSrc + cbDest)
                 then InlineBackwardGCSafeCopy tg pDest pSrc (size_t tg cbDest)
                 else InlineForwardGCSafeCopy tg pDest pSrc (size_t tg cbDest))
                  st)).
Proof.
  split; [apply move_direction_backward|].
  split; [apply move_direction_forward|].
  rewrite RhBulkMoveWithWriteBarrier_run. unfold move_copy.
  destruct (move_direction pDest pSrc cbDest) eqn:E.
  - apply move_direction_forward in E.
    replace ((pSrc <? pDest) && (pDest <? pSrc + cbDest)) with false;
      [reflexivity|]. symmetry. apply andb_false_iff.
    rewrite !Z.ltb_ge. lia.
  - apply move_direction_backward in E.
    replace ((pSrc <? pDest) && (pDest <? pSrc + cbDest)) with true;
      [reflexivity|]. symmetry. apply andb_true_iff.
    rewrite !Z.ltb_lt. lia.
Qed.

(* ================================================================== *)
(** * Barrier coverage *)

Lemma notifies_exactly_covers {A : Type} st (o : outcome A) start len :
  notifies_exactly st o start len -> barrier_covers st o start len.
Proof.
  intros (a & st' & evs & Ho & Hl & Hn).
  exists a, st', evs. repeat split; auto.
  intros x Hx. unfold covered. rewrite Hn. constructor. simpl. lia.
Qed.

(** A copy followed by the barrier notifies the range the barrier was
    given, whatever the copy stored. *)
Lemma barrier_after_stores_notifies {A : Type} (a : A) st st1 start size :
  (exists evs, log_of st1 = log_of st ++ evs /\ forallb is_store evs = true) ->
  notifies_exactly st (Ret a (InlinedBulkWriteBarrier start size st1)) start size.
Proof.
  intros (evs & Hl & Hs).
  exists a, (InlinedBulkWriteBarrier start size st1), (evs ++ [Notify start size]).
  split; [reflexivity|]. split.
  - cbn [InlinedBulkWriteBarrier log_of]. now rewrite Hl, app_assoc.
  - rewrite notified_app, (notified_only_stores evs Hs). reflexivity.
Qed.

Lemma forward_copy_only_stores tg dest src len st :
  exists evs,
    log_of (InlineForwardGCSafeCopy tg dest src len st) = log_of st ++ evs
    /\ forallb is_store evs = true.
Proof.
  destruct (InlineForwardGCSafeCopy_log tg dest src len st)
    as (evs & H1 & H2 & _). eauto.
Qed.

Lemma move_copy_log tg pDest pSrc cbDest st :
  exists evs,
    log_of (move_copy tg pDest pSrc cbDest st) = log_of st ++ evs
    /\ forallb is_store evs = true
    /\ mem_of (move_copy tg pDest pSrc cbDest st) = replay evs (mem_of st).
Proof.
  unfold move_copy. destruct (move_direction pDest pSrc cbDest).
  - destruct (InlineForwardGCSafeCopy_log tg pDest pSrc (size_t tg cbDest) st)
      as (evs & H1 & H2 & _ & H4). eauto.
  - destruct (InlineBackwardGCSafeCopy_log tg pDest pSrc (size_t tg cbDest) st)
      as (evs & H1 & H2 & _ & H4). eauto.
Qed.

Lemma GCSafeCopyMemoryWithWriteBarrier_run tg dest src len b st :
  GCSafeCopyMemoryWithWriteBarrier tg dest src len b st =
  Ret tt (InlinedBulkWriteBarrier dest (UInt32 len)
            (InlineForwardGCSafeCopy tg dest src len st)).
Proof. reflexivity. Qed.

(** What each barriered operation notifies, for every length: the
    destination start with the length converted to [UInt32]. *)
Lemma memcpyGCRefsWithWriteBarrier_notifies tg b dest src len st :
  dest <> nullptr -> src <> nullptr ->
  notifies_exactly st (memcpyGCRefsWithWriteBarrier tg dest src len b st)
    dest (UInt32 len).
Proof.
  intros Hd Hs. rewrite memcpyGCRefsWithWriteBarrier_run by auto.
  apply barrier_after_stores_notifies, forward_copy_only_stores.
Qed.

Lemma GCSafeCopyMemoryWithWriteBarrier_notifies tg b dest src len st :
  notifies_exactly st (GCSafeCopyMemoryWithWriteBarrier tg dest src len b st)
    dest (UInt32 len).
Proof.
  rewrite GCSafeCopyMemoryWithWriteBarrier_run.
  apply barrier_after_stores_notifies, forward_copy_only_stores.
Qed.

Lemma RhBulkMoveWithWriteBarrier_notifies tg b pDest pSrc cbDest st :
  notifies_exactly st (RhBulkMoveWithWriteBarrier tg pDest pSrc cbDest b st)
    pDest (UInt32 cbDest).
Proof.
  rewrite RhBulkMoveWithWriteBarrier_run.
  apply barrier_after_stores_notifies.
  destruct (move_copy_log tg pDest pSrc cbDest st) as (evs & H1 & H2 & _).
  eauto.
Qed.

(** C3, as stated, fails: on the 64-bit target a copy with barrier of
    [2 ^ 32] bytes notifies a range of length [(UInt32) 2 ^ 32 = 0], which
    does not cover the first byte of the destination. *)
Lemma barrier_covers_counterexample :
  notifies_exactly sample_state
    (memcpyGCRefsWithWriteBarrier Target64 4096 (2 ^ 33) (2 ^ 32)
       Debug sample_state)
    4096 0
  /\ ~ barrier_covers sample_state
        (memcpyGCRefsWithWriteBarrier Target64 4096 (2 ^ 33) (2 ^ 32)
           Debug sample_state)
        4096 (2 ^ 32).
Proof.
  split.
  { exact (memcpyGCRefsWithWriteBarrier_notifies Target64 Debug
             4096 (2 ^ 33) (2 ^ 32) sample_state
             ltac:(discriminate) ltac:(discriminate)). }
  intros (a & st' & evs & Ho & Hl & Hc).
  destruct (memcpyGCRefsWithWriteBarrier_notifies Target64 Debug
              4096 (2 ^ 33) (2 ^ 32) sample_state)
    as (a' & st'' & evs' & Ho' & Hl' & Hn'); [discriminate | discriminate |].
  rewrite Ho in Ho'. injection Ho' as _ <-.
  rewrite Hl in Hl'. apply app_inv_head in Hl'. subst evs'.
  specialize (Hc 4096). rewrite Hn' in Hc.
  assert (Hin : 4096 <= 4096 < 4096 + 2 ^ 32) by lia.
  apply Hc in Hin. unfold covered in Hin.
  apply Exists_cons in Hin. destruct Hin as [Hin | Hin].
  - cbn [fst snd] in Hin. change (UInt32 (2 ^ 32)) with 0 in Hin. lia.
  - inversion Hin.
Qed.

(** C3, amended.  For every barriered operation whose destination range has
    a length below [2 ^ 32] (for the move: a non-negative [int]), the
    operation notifies the recorder of exactly the destination range, so the
    notification covers every address of it without gap.  The copy entry
    points are taken with non-null pointers. *)
Theorem barrier_covers_destination tg b dest src len st :
  0 <= len < 2 ^ 32 ->
  dest <> nullptr -> src <> nullptr ->
  (notifies_exactly st (memcpyGCRefsWithWriteBarrier tg dest src len b st)
     dest len
   /\ barrier_covers st (memcpyGCRefsWithWriteBarrier tg dest src len b st)
        dest len)
  /\ (notifies_exactly st (GCSafeCopyMemoryWithWriteBarrier tg dest src len b st)
        dest len
      /\ barrier_covers st (GCSafeCopyMemoryWithWriteBarrier tg dest src len b st)
           dest len)
  /\ (len <= INT_MAX ->
      notifies_exactly st (RhBulkMoveWithWriteBarrier tg dest src len b st)
        dest len
      /\ barrier_covers st (RhBulkMoveWithWriteBarrier tg dest src len b st)
           dest len).
Proof.
  intros Hlen Hd Hs.
  pose proof (memcpyGCRefsWithWriteBarrier_notifies tg b dest src len st Hd Hs) as H1.
  pose proof (GCSafeCopyMemoryWithWriteBarrier_notifies tg b dest src len st) as H2.
  pose proof (RhBulkMoveWithWriteBarrier_notifies tg b dest src len st) as H3.
  rewrite (UInt32_small len Hlen) in H1, H2, H3.
  repeat split; auto using notifies_exactly_covers.
Qed.

Lemma barrier_covers_destination_witness :
  0 <= 24 < 2 ^ 32 /\ 4096 <> nullptr /\ 8192 <> nullptr
  /\ barrier_covers sample_state
       (memcpyGCRefsWithWriteBarrier Target64 4096 8192 24 Debug sample_state)
       4096 24.
Proof.
  split; [lia|]. split; [discriminate|]. split; [discriminate|].
  apply (barrier_covers_destination Target64 Debug 4096 8192 24 sample_state);
    [lia | discriminate | discriminate].
Defined.

(* ================================================================== *)
(** * Ordering of the barrier after the copy *)

(** C5.  Every call of [RhBulkMoveWithWriteBarrier] returns, whatever its
    arguments and whichever direction it copies in, and what it appends to
    the log is the stores of the copy followed by a single notification of
    the recorder for [pDest] and the length as [UInt32] (the length itself
    when it is not negative): the notification comes after every data store,
    and the memory at that point already holds the result of all of them. *)
Theorem RhBulkMoveWithWriteBarrier_barrier_last tg b pDest pSrc cbDest st :
  exists st' evs,
    RhBulkMoveWithWriteBarrier tg pDest pSrc cbDest b st = Ret tt st'
    /\ log_of st' = log_of st ++ evs ++ [Notify pDest (UInt32 cbDest)]
    /\ forallb is_store evs = true
    /\ mem_of st' = replay evs (mem_of st)
    /\ (0 <= cbDest <= INT_MAX -> UInt32 cbDest = cbDest).
Proof.
  destruct (move_copy_log tg pDest pSrc cbDest st) as (evs & H1 & H2 & H3).
  exists (InlinedBulkWriteBarrier pDest (UInt32 cbDest)
            (move_copy tg pDest pSrc cbDest st)), evs.
  split; [apply RhBulkMoveWithWriteBarrier_run|].
  cbn [InlinedBulkWriteBarrier log_of mem_of].
  rewrite H1, <- app_assoc. repeat split; auto using UInt32_int.
Qed.

(* ================================================================== *)
(** * Fill correctness *)

Lemma map_const {A B : Type} (f : A -> B) (v : B) (l : list A) :
  (forall x, In x l -> f x = v) -> map f l = repeat v (length l).
Proof.
  induction l as [|x l IH]; intros H; simpl; [reflexivity|].
  rewrite (H x) by (now left). f_equal. apply IH. intros y Hy. apply H. now right.
Qed.

Lemma read_bytes_const m a k v :
  (forall x, a <= x < a + Z.of_nat k -> m x = v) ->
  read_bytes m a k = repeat v k.
Proof.
  intros H. unfold read_bytes.
  rewrite (map_const _ v) by (intros i Hi; apply in_seq in Hi; apply H; lia).
  now rewrite length_seq.
Qed.

(** C6.  For every non-null range of any length, aligned or not, and every
    fill argument, [RhpInitMultibyte] returns the start of the range, leaves
    every byte of the range equal to the byte value [(UInt8) c] (so a full
    read of the range returns that value repeated), and leaves the bytes
    outside the range as they were. *)
Theorem RhpInitMultibyte_fills tg b mem c size st :
  mem <> nullptr ->
  0 <= size ->
  exists st',
    RhpInitMultibyte tg mem c size b st = Ret mem st'
    /\ (forall x, mem <= x < mem + size -> mem_of st' x = UInt8 c)
    /\ read_bytes (mem_of st') mem (Z.to_nat size)
       = repeat (UInt8 c) (Z.to_nat size)
    /\ (forall x, x < mem \/ mem + size <= x -> mem_of st' x = mem_of st x).
Proof.
  intros Hm Hs. eexists. split; [apply RhpInitMultibyte_run; auto|].
  assert (Hin : forall x, mem <= x < mem + size ->
    mem_of (InlineGCSafeFillMemory tg mem size (fill_pattern tg c) st) x
    = UInt8 c).
  { intros x Hx.
    rewrite (InlineGCSafeFillMemory_mem tg mem size _ (UInt8 c))
      by (auto using fill_pattern_bytes).
    now range_test. }
  split; [exact Hin|]. split.
  - apply read_bytes_const. intros x Hx. apply Hin. lia.
  - intros x Hx.
    rewrite (InlineGCSafeFillMemory_mem tg mem size _ (UInt8 c))
      by (auto using fill_pattern_bytes).
    now range_test.
Qed.

Lemma RhpInitMultibyte_fills_witness :
  4093 <> nullptr /\ 0 <= 14
  /\ exists st',
       RhpInitMultibyte Target32 4093 (-1) 14 Debug sample_state = Ret 4093 st'
       /\ (forall x, 4093 <= x < 4093 + 14 -> mem_of st' x = UInt8 (-1))
       /\ read_bytes (mem_of st') 4093 (Z.to_nat 14)
          = repeat (UInt8 (-1)) (Z.to_nat 14)
       /\ (forall x, x < 4093 \/ 4093 + 14 <= x ->
                     mem_of st' x = mem_of sample_state x).
Proof.
  split; [discriminate|]. split; [lia|].
  apply (RhpInitMultibyte_fills Target32 Debug 4093 (-1) 14 sample_state);
    [discriminate | lia].
Defined.

(* ================================================================== *)
(** * Copy with barrier as a composition *)

(** C7.  [memcpyGCRefsWithWriteBarrier] gives, for every destination, source,
    length, build and start state, the outcome of [memcpyGCRefs] followed by
    [RhpBulkWriteBarrier] on the destination: same memory, same log of
    stores and notifications, same result [dest], and the same abort on a
    failed assertion.  It takes no overlap decision: in a release build it
    is the forward copy followed by the barrier for all arguments. *)
Theorem memcpyGCRefsWithWriteBarrier_is_copy_then_barrier
  tg b dest src len st :
  memcpyGCRefsWithWriteBarrier tg dest src len b st
  = copy_then_barrier tg dest src len b st
  /\ memcpyGCRefsWithWriteBarrier tg dest src len Release st
     = Ret dest (InlinedBulkWriteBarrier dest (UInt32 len)
                   (InlineForwardGCSafeCopy tg dest src len st)).
Proof.
  split; [|reflexivity].
  unfold memcpyGCRefsWithWriteBarrier, copy_then_barrier, memcpyGCRefs,
    RhpBulkWriteBarrier, bind, ASSERT, exec, ret.
  destruct b; [|reflexivity].
  destruct (negb (dest =? nullptr)); [|reflexivity].
  destruct (negb (src =? nullptr)); reflexivity.
Qed.

(* ================================================================== *)
(** * Assertions on null pointers *)

(** C9, as stated, fails: [RhBulkMoveWithWriteBarrier] carries no assertion.
    In a debug build, called with a null destination and a null source (and
    a length of zero, so that no byte is accessed), it does not abort: it
    returns after notifying the recorder. *)
Lemma debug_null_abort_counterexample :
  RhBulkMoveWithWriteBarrier Target64 nullptr nullptr 0 Debug sample_state
  = Ret tt {| mem_of := mem_of sample_state; log_of := [Notify nullptr 0] |}
  /\ RhBulkMoveWithWriteBarrier Target64 nullptr nullptr 0 Debug sample_state
     <> Abort.
Proof. split; [reflexivity | discriminate]. Qed.

(** C9, amended.  [RhpInitMultibyte], [memcpyGCRefs] and
    [memcpyGCRefsWithWriteBarrier] abort in a debug build when the
    destination or the source is null, and in a release build run unchecked
    to their result; [RhBulkMoveWithWriteBarrier], [GCSafeZeroMemory],
    [GCSafeCopyMemoryWithWriteBarrier] and [RhpBulkWriteBarrier] hold no
    assertion and never abort, in either build. *)
Theorem null_pointer_assertions tg b p q c n st :
  (RhpInitMultibyte tg nullptr c n Debug st = Abort
   /\ memcpyGCRefs tg nullptr q n Debug st = Abort
   /\ memcpyGCRefs tg p nullptr n Debug st = Abort
   /\ memcpyGCRefsWithWriteBarrier tg nullptr q n Debug st = Abort
   /\ memcpyGCRefsWithWriteBarrier tg p nullptr n Debug st = Abort)
  /\ (RhpInitMultibyte tg p c n Release st
      = Ret p (InlineGCSafeFillMemory tg p n (fill_pattern tg c) st)
      /\ memcpyGCRefs tg p q n Release st
         = Ret p (InlineForwardGCSafeCopy tg p q n st)
      /\ memcpyGCRefsWithWriteBarrier tg p q n Release st
         = Ret p (InlinedBulkWriteBarrier p (UInt32 n)
                    (InlineForwardGCSafeCopy tg p q n st)))
  /\ (RhBulkMoveWithWriteBarrier tg p q n b st <> Abort
      /\ GCSafeZeroMemory tg p n b st <> Abort
      /\ GCSafeCopyMemoryWithWriteBarrier tg p q n b st <> Abort
      /\ RhpBulkWriteBarrier p n b st <> Abort).
Proof.
  split; [|split].
  - repeat split; try reflexivity;
      unfold memcpyGCRefs, memcpyGCRefsWithWriteBarrier, bind, ASSERT;
      destruct (negb (p =? nullptr)); reflexivity.
  - repeat split; reflexivity.
  - rewrite RhBulkMoveWithWriteBarrier_run. repeat split; discriminate.
Qed.

(* ================================================================== *)
(** * The fill argument *)

Lemma UIntNative_UInt8 tg c : UIntNative tg (UInt8 c) = UInt8 c.
Proof.
  unfold UIntNative. apply Z.mod_small. pose proof (UInt8_bounds c).
  destruct tg; simpl POINTER_SIZE; lia.
Qed.

(** C10.  [RhpInitMultibyte] depends on its [int] argument through its low
    eight bits only: with [c] and with [c mod 256] it has the same outcome
    (memory, log and result); the word it builds is zero, without the
    shifts, when [(UInt8) c] is zero and the replicated byte otherwise; and
    each of the [POINTER_SIZE] bytes of that word is [(UInt8) c]. *)
Theorem RhpInitMultibyte_low_byte tg b mem c size st :
  RhpInitMultibyte tg mem c size b st
  = RhpInitMultibyte tg mem (c mod 256) size b st
  /\ fill_pattern tg c
     = (if UInt8 c =? 0 then 0 else replicate_byte tg (UInt8 c))
  /\ bytes_of (Z.to_nat (POINTER_SIZE tg)) (fill_pattern tg c)
     = repeat (UInt8 c) (Z.to_nat (POINTER_SIZE tg))
  /\ (c mod 256 = 0 -> fill_pattern tg c = 0).
Proof.
  assert (Hp : fill_pattern tg c
               = if UInt8 c =? 0 then 0 else replicate_byte tg (UInt8 c)).
  { unfold fill_pattern. cbv zeta. rewrite UIntNative_UInt8.
    destruct (UInt8 c =? 0); reflexivity. }
  repeat split.
  - unfold RhpInitMultibyte. rewrite (fill_pattern_low tg c).
    rewrite (fill_pattern_low tg (c mod 256)).
    change (c mod 256) with (UInt8 c). now rewrite UInt8_idem.
  - exact Hp.
  - unfold bytes_of.
    rewrite (map_const _ (UInt8 c))
      by (intros i Hi; apply in_seq in Hi; apply fill_pattern_bytes; lia).
    now rewrite length_seq.
  - intros H0. rewrite Hp. change (UInt8 c) with (c mod 256). now rewrite H0.
Qed.

(* ================================================================== *)
(** * Zero length and idempotence *)

Lemma InlineGCSafeFillMemory_zero tg mem pv st :
  InlineGCSafeFillMemory tg mem 0 pv st = st.
Proof. unfold InlineGCSafeFillMemory. now rewrite chunks_empty. Qed.

Lemma InlineForwardGCSafeCopy_zero tg dest src st :
  InlineForwardGCSafeCopy tg dest src 0 st = st.
Proof. unfold InlineForwardGCSafeCopy. now rewrite chunks_empty. Qed.

Lemma InlineBackwardGCSafeCopy_zero tg dest src st :
  InlineBackwardGCSafeCopy tg dest src 0 st = st.
Proof. unfold InlineBackwardGCSafeCopy. now rewrite chunks_empty. Qed.

Lemma move_copy_zero tg pDest pSrc st : move_copy tg pDest pSrc 0 st = st.
Proof.
  unfold move_copy.
  replace (size_t tg 0) with 0 by (destruct tg; reflexivity).
  destruct (move_direction pDest pSrc 0);
    [apply InlineForwardGCSafeCopy_zero | apply InlineBackwardGCSafeCopy_zero].
Qed.

Lemma no_writes_same {A : Type} (a : A) st : no_writes st (Ret a st).
Proof.
  split; [|reflexivity]. exists []. now rewrite app_nil_r.
Qed.

Lemma no_writes_barrier {A : Type} (a : A) st start size :
  no_writes st (Ret a (InlinedBulkWriteBarrier start size st)).
Proof.
  split; [|reflexivity]. exists [Notify start size]. split; reflexivity.
Qed.

(** An entry point either aborts on its assertions, whatever the state, or
    runs a total helper on it. *)
Lemma asserted_cases {A : Type} (op : M A) b (a : A) (f : State -> State)
  (P : outcome A -> State -> Prop) :
  (forall s, op b s = Abort) \/ (forall s, op b s = Ret a (f s)) ->
  (forall s, P Abort s) ->
  (forall s, P (Ret a (f s)) s) ->
  forall s, P (op b s) s.
Proof. intros [H | H] Ha Hr s; rewrite H; auto. Qed.

Lemma RhpInitMultibyte_cases tg mem c size b :
  (forall s, RhpInitMultibyte tg mem c size b s = Abort)
  \/ (forall s, RhpInitMultibyte tg mem c size b s
                = Ret mem (InlineGCSafeFillMemory tg mem size
                             (fill_pattern tg c) s)).
Proof.
  unfold RhpInitMultibyte, bind, ASSERT, exec, ret.
  destruct b; [|now right].
  destruct (negb (mem =? nullptr)); [now right | now left].
Qed.

Lemma memcpyGCRefs_cases tg dest src len b :
  (forall s, memcpyGCRefs tg dest src len b s = Abort)
  \/ (forall s, memcpyGCRefs tg dest src len b s
                = Ret dest (InlineForwardGCSafeCopy tg dest src len s)).
Proof.
  unfold memcpyGCRefs, bind, ASSERT, exec, ret.
  destruct b; [|now right].
  destruct (negb (dest =? nullptr)); [|now left].
  destruct (negb (src =? nullptr)); [now right | now left].
Qed.

Lemma memcpyGCRefsWithWriteBarrier_cases tg dest src len b :
  (forall s, memcpyGCRefsWithWriteBarrier tg dest src len b s = Abort)
  \/ (forall s, memcpyGCRefsWithWriteBarrier tg dest src len b s
                = Ret dest (InlinedBulkWriteBarrier dest (UInt32 len)
                              (InlineForwardGCSafeCopy tg dest src len s))).
Proof.
  unfold memcpyGCRefsWithWriteBarrier, bind, ASSERT, exec, ret.
  destruct b; [|now right].
  destruct (negb (dest =? nullptr)); [|now left].
  destruct (negb (src =? nullptr)); [now right | now left].
Qed.

Lemma same_memory_twice_cases {A : Type} (op : M A) b (a : A) f st :
  (forall s, op b s = Abort) \/ (forall s, op b s = Ret a (f s)) ->
  (forall x, mem_of (f (f st)) x = mem_of (f st) x) ->
  same_memory_twice op b st.
Proof.
  intros [H | H] Hm; unfold same_memory_twice; rewrite !H; auto.
Qed.

(** A helper that copies [len] bytes from [src] to [dest] changes nothing
    when run again, provided the two ranges coincide or are disjoint. *)
Lemma copy_twice_mem (f : State -> State) dest src len :
  (forall s x, mem_of (f s) x =
               if (dest <=? x) && (x <? dest + len)
               then mem_of s (src + (x - dest)) else mem_of s x) ->
  0 <= len ->
  dest = src \/ dest + len <= src \/ src + len <= dest ->
  forall st x, mem_of (f (f st)) x = mem_of (f st) x.
Proof.
  intros Hf Hl Hd st x. rewrite (Hf (f st)).
  destruct (Z_lt_ge_dec x dest) as [H1|H1]; [now range_test|].
  destruct (Z_lt_ge_dec x (dest + len)) as [H2|H2]; [|now range_test].
  range_test. rewrite !Hf. range_test.
  destruct Hd as [-> | Hd].
  - range_test. f_equal. lia.
  - now range_test.
Qed.

Lemma fill_twice_mem tg mem c size st x :
  0 <= size ->
  mem_of (InlineGCSafeFillMemory tg mem size (fill_pattern tg c)
            (InlineGCSafeFillMemory tg mem size (fill_pattern tg c) st)) x
  = mem_of (InlineGCSafeFillMemory tg mem size (fill_pattern tg c) st) x.
Proof.
  intros Hs.
  rewrite !(InlineGCSafeFillMemory_mem tg mem size _ (UInt8 c))
    by (auto using fill_pattern_bytes).
  destruct ((mem <=? x) && (x <? mem + size)); reflexivity.
Qed.

(** C8, as stated, fails: a forward copy between overlapping ranges, run a
    second time with the same arguments, moves the bytes once more.  On the
    sample memory, copying 16 bytes from 4104 to 4096 twice differs from
    copying them once; the same holds for the move. *)
Lemma copy_twice_counterexample :
  (exists st1 st2,
     memcpyGCRefs Target64 4096 4104 16 Release sample_state = Ret 4096 st1
     /\ memcpyGCRefs Target64 4096 4104 16 Release st1 = Ret 4096 st2
     /\ mem_of st1 4096 = 8 /\ mem_of st2 4096 = 16)
  /\ ~ same_memory_twice (memcpyGCRefs Target64 4096 4104 16)
        Release sample_state
  /\ ~ same_memory_twice (RhBulkMoveWithWriteBarrier Target64 4096 4104 16)
        Release sample_state.
Proof.
  split; [|split].
  - do 2 eexists. split; [apply memcpyGCRefs_run; auto|].
    split; [apply memcpyGCRefs_run; auto|].
    split; vm_compute; reflexivity.
  - intros H. unfold same_memory_twice in H.
    rewrite !memcpyGCRefs_run in H by auto.
    specialize (H 4096). vm_compute in H. discriminate.
  - intros H. unfold same_memory_twice in H.
    rewrite !RhBulkMoveWithWriteBarrier_run in H.
    specialize (H 4096). vm_compute in H. discriminate.
Qed.

(** C8, amended.  Every operation called with length 0 performs no memory
    write (the barriered ones still notify the recorder).  Filling twice with
    identical arguments leaves the memory of filling once; copying twice
    with identical arguments leaves the memory of copying once when the
    source and destination ranges coincide or are disjoint. *)
Theorem zero_length_and_idempotence tg b dest src len c st :
  0 <= len ->
  dest = src \/ dest + len <= src \/ src + len <= dest ->
  (no_writes st (RhpInitMultibyte tg dest c 0 b st)
   /\ no_writes st (memcpyGCRefs tg dest src 0 b st)
   /\ no_writes st (exec (InlineBackwardGCSafeCopy tg dest src 0) b st)
   /\ no_writes st (RhBulkMoveWithWriteBarrier tg dest src 0 b st)
   /\ no_writes st (memcpyGCRefsWithWriteBarrier tg dest src 0 b st))
  /\ same_memory_twice (RhpInitMultibyte tg dest c len) b st
  /\ same_memory_twice (memcpyGCRefs tg dest src len) b st
  /\ same_memory_twice (exec (InlineBackwardGCSafeCopy tg dest src len)) b st
  /\ same_memory_twice (memcpyGCRefsWithWriteBarrier tg dest src len) b st
  /\ (len <= INT_MAX ->
      same_memory_twice (RhBulkMoveWithWriteBarrier tg dest src len) b st).
Proof.
  intros Hl Hd.
  refine (conj (conj _ (conj _ (conj _ (conj _ _))))
               (conj _ (conj _ (conj _ (conj _ _))))).
  - apply (asserted_cases _ b dest _ (fun o s => no_writes s o)
             (RhpInitMultibyte_cases tg dest c 0 b)); [exact (fun _ => I)|].
    intros s. rewrite InlineGCSafeFillMemory_zero. apply no_writes_same.
  - apply (asserted_cases _ b dest _ (fun o s => no_writes s o)
             (memcpyGCRefs_cases tg dest src 0 b)); [exact (fun _ => I)|].
    intros s. rewrite InlineForwardGCSafeCopy_zero. apply no_writes_same.
  - unfold exec. rewrite InlineBackwardGCSafeCopy_zero.
    exact (no_writes_same tt st).
  - rewrite RhBulkMoveWithWriteBarrier_run, move_copy_zero.
    apply no_writes_barrier.
  - apply (asserted_cases _ b dest _ (fun o s => no_writes s o)
             (memcpyGCRefsWithWriteBarrier_cases tg dest src 0 b));
      [exact (fun _ => I)|].
    intros s. rewrite InlineForwardGCSafeCopy_zero. apply no_writes_barrier.
  - apply (same_memory_twice_cases _ b dest _ st
             (RhpInitMultibyte_cases tg dest c len b)).
    intros x. now apply fill_twice_mem.
  - apply (same_memory_twice_cases _ b dest _ st
             (memcpyGCRefs_cases tg dest src len b)).
    apply (copy_twice_mem _ dest src len); auto.
    intros s x. apply InlineForwardGCSafeCopy_mem; lia.
  - apply (same_memory_twice_cases _ b tt
             (InlineBackwardGCSafeCopy tg dest src len) st);
      [right; reflexivity|].
    apply (copy_twice_mem _ dest src len); auto.
    intros s x. apply InlineBackwardGCSafeCopy_mem; lia.
  - apply (same_memory_twice_cases _ b dest _ st
             (memcpyGCRefsWithWriteBarrier_cases tg dest src len b)).
    apply (copy_twice_mem
             (fun s => InlinedBulkWriteBarrier dest (UInt32 len)
                         (InlineForwardGCSafeCopy tg dest src len s))
             dest src len); auto.
    intros s x. cbn [InlinedBulkWriteBarrier mem_of].
    apply InlineForwardGCSafeCopy_mem; lia.
  - intros Hi.
    apply (same_memory_twice_cases _ b tt
             (fun s => InlinedBulkWriteBarrier dest (UInt32 len)
                         (move_copy tg dest src len s)) st);
      [right; intros s; apply RhBulkMoveWithWriteBarrier_run|].
    apply (copy_twice_mem
             (fun s => InlinedBulkWriteBarrier dest (UInt32 len)
                         (move_copy tg dest src len s))
             dest src len); auto.
    intros s x. cbn [InlinedBulkWriteBarrier mem_of].
    apply move_copy_mem; lia.
Qed.

Lemma zero_length_and_idempotence_witness :
  0 <= 24 /\ (4096 = 8192 \/ 4096 + 24 <= 8192 \/ 8192 + 24 <= 4096)
  /\ same_memory_twice (memcpyGCRefs Target64 4096 8192 24) Debug sample_state.
Proof.
  assert (H1 : 0 <= 24) by lia.
  assert (H2 : 4096 = 8192 \/ 4096 + 24 <= 8192 \/ 8192 + 24 <= 4096) by lia.
  split; [exact H1|]. split; [exact H2|].
  exact (proj1 (proj2 (proj2
    (zero_length_and_idempotence Target64 Debug 4096 8192 24 0 sample_state
       H1 H2)))).
Defined.

(* ================================================================== *)
(** * Word atomicity *)

Lemma replay_cons e l m : replay (e :: l) m = replay l (apply_event m e).
Proof. reflexivity. Qed.

Lemma word_run_firstn w a evs :
  word_run w a evs -> forall k, word_run w a (firstn k evs).
Proof.
  induction 1 as [a | a bs evs Hb Hr IH]; intros [|k]; simpl;
    constructor; auto.
Qed.

(** A run of word stores leaves the addresses below its start alone. *)
Lemma word_run_below w a evs :
  word_run w a evs -> 0 <= w ->
  forall m x, x < a -> replay evs m x = m x.
Proof.
  induction 1 as [a | a bs evs Hb Hr IH]; intros Hw m x Hx; [reflexivity|].
  rewrite replay_cons, IH by lia. simpl. apply write_bytes_out. lia.
Qed.

(** After the first [k] stores of a run, word [j] holds its final bytes if
    [j < k] and its initial bytes otherwise. *)
Lemma word_run_prefix w a evs :
  word_run w a evs -> 0 < w ->
  forall m k j x,
    (j < length evs)%nat ->
    a + Z.of_nat j * w <= x < a + (Z.of_nat j + 1) * w ->
    replay (firstn k evs) m x = if (j <? k)%nat then replay evs m x else m x.
Proof.
  induction 1 as [a | a bs evs Hb Hr IH]; intros Hw m k j x Hj Hx;
    [simpl in Hj; lia|].
  destruct k as [|k]; [reflexivity|].
  simpl firstn. rewrite !replay_cons.
  destruct j as [|j].
  - change (0 <? S k)%nat with true.
    rewrite (word_run_below w (a + w) _ (word_run_firstn _ _ _ Hr k)) by lia.
    rewrite (word_run_below w (a + w) _ Hr) by lia. reflexivity.
  - change (S j <? S k)%nat with (j <? k)%nat.
    simpl in Hj. rewrite (IH Hw _ k j x) by lia.
    destruct (j <? k)%nat; [reflexivity|].
    simpl. apply write_bytes_out. lia.
Qed.

(** A reader that samples word [j] at any point of a run of word stores
    sees all of its initial bytes or all of its final bytes. *)
Lemma word_run_sample w a evs :
  word_run w a evs -> 0 < w ->
  forall m k j,
    (j < length evs)%nat ->
    read_bytes (replay (firstn k evs) m) (a + Z.of_nat j * w) (Z.to_nat w)
    = read_bytes m (a + Z.of_nat j * w) (Z.to_nat w)
    \/ read_bytes (replay (firstn k evs) m) (a + Z.of_nat j * w) (Z.to_nat w)
       = read_bytes (replay evs m) (a + Z.of_nat j * w) (Z.to_nat w).
Proof.
  intros Hr Hw m k j Hj.
  assert (H : forall i, In i (seq 0 (Z.to_nat w)) ->
    replay (firstn k evs) m (a + Z.of_nat j * w + Z.of_nat i)
    = if (j <? k)%nat
      then replay evs m (a + Z.of_nat j * w + Z.of_nat i)
      else m (a + Z.of_nat j * w + Z.of_nat i)).
  { intros i Hi. apply in_seq in Hi.
    apply (word_run_prefix w a evs Hr Hw m k j); [assumption | lia]. }
  destruct (j <? k)%nat; [right | left]; unfold read_bytes;
    apply map_ext_in; exact H.
Qed.

(** A loop over [n] word-sized accesses, each iteration one store of that
    width, logs a run of word stores. *)
Lemma fold_word_run (f : State -> Z * Z -> State) (base w : Z) :
  (forall st c, exists bs,
      f st c = store (base + fst c) bs st /\ length bs = Z.to_nat (snd c)) ->
  0 < w ->
  forall n from st,
  exists evs,
    log_of (fold_left f (run from w (Z.of_nat n)) st) = log_of st ++ evs
    /\ word_run w (base + from) evs
    /\ length evs = n
    /\ mem_of (fold_left f (run from w (Z.of_nat n)) st)
       = replay evs (mem_of st).
Proof.
  intros Hf Hw. induction n as [|n IH]; intros from st.
  - exists []. simpl. rewrite app_nil_r. repeat split. constructor.
  - rewrite run_shift. simpl fold_left.
    destruct (Hf st (from, w)) as (bs & E & Hb). cbn [fst snd] in E, Hb.
    destruct (IH (from + w) (f st (from, w))) as (evs & Hl & Hr & Hn & Hm).
    exists (Store (base + from) bs :: evs).
    rewrite Hl, Hm, E. cbn [store log_of mem_of].
    rewrite <- app_assoc. repeat split.
    + constructor; [lia|]. now rewrite <- Z.add_assoc.
    + simpl. now f_equal.
Qed.

Lemma fill_chunk_width base pv st c :
  exists bs,
    fill_chunk base pv st c = store (base + fst c) bs st
    /\ length bs = Z.to_nat (snd c).
Proof. unfold fill_chunk. eexists. split; [reflexivity|]. apply bytes_of_length. Qed.

Lemma copy_chunk_width dest src st c :
  exists bs,
    copy_chunk dest src st c = store (dest + fst c) bs st
    /\ length bs = Z.to_nat (snd c).
Proof.
  unfold copy_chunk. eexists. split; [reflexivity|]. apply read_bytes_length.
Qed.

(** A word-aligned range of whole words has no leading and no trailing zone:
    its pass is one word-sized access per word. *)
Lemma chunks_aligned tg start n :
  IS_ALIGNED start (POINTER_SIZE tg) = true ->
  chunks tg start (Z.of_nat n * POINTER_SIZE tg)
  = run 0 (POINTER_SIZE tg) (Z.of_nat n).
Proof.
  intros Ha. apply Z.eqb_eq in Ha.
  pose proof (POINTER_SIZE_pos tg) as Hw.
  assert (Hz : zoning tg start (Z.of_nat n * POINTER_SIZE tg)
               = mkZones 0 (Z.of_nat n) 0).
  { unfold zoning. cbv zeta. rewrite Ha, Z.sub_0_r, Z.mod_same by lia.
    replace (Z.min (Z.of_nat n * POINTER_SIZE tg) 0) with 0 by nia.
    rewrite Z.sub_0_r, Z.div_mul, Z.mod_mul by lia. reflexivity. }
  unfold chunks. rewrite Hz. cbn [lead words trail].
  change (run 0 1 0) with (@nil (Z * Z)).
  change (run (0 + Z.of_nat n * POINTER_SIZE tg) 1 0) with (@nil (Z * Z)).
  now rewrite app_nil_r.
Qed.

Lemma word_atomic_fold {A : Type} (a : A) (f : State -> Z * Z -> State)
  tg base n st :
  (forall st c, exists bs,
      f st c = store (base + fst c) bs st /\ length bs = Z.to_nat (snd c)) ->
  word_atomic st
    (Ret a (fold_left f (run 0 (POINTER_SIZE tg) (Z.of_nat n)) st))
    (POINTER_SIZE tg) base n.
Proof.
  intros Hf. pose proof (POINTER_SIZE_pos tg) as Hw.
  destruct (fold_word_run f base (POINTER_SIZE tg) Hf Hw n 0 st)
    as (evs & Hl & Hr & Hn & Hm).
  rewrite Z.add_0_r in Hr.
  eexists a, _, evs. split; [reflexivity|]. repeat split; auto.
  intros k j Hj. rewrite Hm.
  apply word_run_sample; auto. lia.
Qed.

(** C4.  On a word-aligned range of whole words, the fill and the forward
    copy store each destination word exactly once, with one word-sized
    store; a concurrent reader, which samples a word of the range between
    two stores of the operation, therefore reads either the word as it was
    before the operation or the word as the operation leaves it, never a
    mixture of bytes of the two.  Stores are the atomic steps of the
    interleaving. *)
Theorem word_atomicity tg b mem c dest src n st :
  IS_ALIGNED mem (POINTER_SIZE tg) = true ->
  IS_ALIGNED dest (POINTER_SIZE tg) = true ->
  mem <> nullptr -> dest <> nullptr -> src <> nullptr ->
  word_atomic st
    (RhpInitMultibyte tg mem c (Z.of_nat n * POINTER_SIZE tg) b st)
    (POINTER_SIZE tg) mem n
  /\ word_atomic st
       (memcpyGCRefs tg dest src (Z.of_nat n * POINTER_SIZE tg) b st)
       (POINTER_SIZE tg) dest n.
Proof.
  intros Ham Had Hm Hd Hs. split.
  - rewrite RhpInitMultibyte_run by auto.
    unfold InlineGCSafeFillMemory. rewrite chunks_aligned by assumption.
    apply word_atomic_fold. apply fill_chunk_width.
  - rewrite memcpyGCRefs_run by auto.
    unfold InlineForwardGCSafeCopy. rewrite chunks_aligned by assumption.
    apply word_atomic_fold. apply copy_chunk_width.
Qed.

Lemma word_atomicity_witness :
  IS_ALIGNED 4096 (POINTER_SIZE Target64) = true
  /\ IS_ALIGNED 4104 (POINTER_SIZE Target64) = true
  /\ 4096 <> nullptr /\ 4104 <> nullptr /\ 4112 <> nullptr
  /\ word_atomic sample_state
       (RhpInitMultibyte Target64 4096 255
          (Z.of_nat 3 * POINTER_SIZE Target64) Debug sample_state)
       (POINTER_SIZE Target64) 4096 3
  /\ word_atomic sample_state
       (memcpyGCRefs Target64 4104 4112
          (Z.of_nat 3 * POINTER_SIZE Target64) Debug sample_state)
       (POINTER_SIZE Target64) 4104 3.
Proof.
  split; [reflexivity|]. split; [reflexivity|].
  split; [discriminate|]. split; [discriminate|]. split; [discriminate|].
  apply (word_atomicity Target64 Debug 4096 255 4104 4112 3 sample_state);
    (reflexivity || discriminate).
Defined.

(* ================================================================== *)
(** * Further properties: the fill pattern in closed form *)

Lemma pattern_product_check_ok tg : pattern_product_check tg = true.
Proof. destruct tg; vm_compute; reflexivity. Qed.

Lemma byte_ones_bound tg : 255 * byte_ones tg = 2 ^ (8 * POINTER_SIZE tg) - 1.
Proof. destruct tg; reflexivity. Qed.

(** X1.  The word [RhpInitMultibyte] builds is the fill byte times
    [0x01...01]: the shifts never overflow the word, the result fits a
    [UIntNative], and the test [bv != 0] only saves the arithmetic, since
    the replication of a zero byte is zero too. *)
Theorem fill_pattern_closed_form tg c :
  fill_pattern tg c = UInt8 c * byte_ones tg
  /\ fill_pattern tg c = replicate_byte tg (UInt8 c)
  /\ 0 <= fill_pattern tg c < 2 ^ (8 * POINTER_SIZE tg)
  /\ UIntNative tg (fill_pattern tg c) = fill_pattern tg c.
Proof.
  pose proof (UInt8_bounds c) as Hb.
  pose proof (pattern_product_check_ok tg) as H. unfold pattern_product_check in H.
  rewrite forallb_forall in H.
  specialize (H (Z.to_nat (UInt8 c))).
  rewrite Z2Nat.id in H by lia.
  assert (Hin : In (Z.to_nat (UInt8 c)) (seq 0 256)) by (apply in_seq; lia).
  apply H in Hin. apply andb_true_iff in Hin. destruct Hin as [H1 H2].
  apply Z.eqb_eq in H1, H2. rewrite <- fill_pattern_low in H1.
  assert (Hr : 0 <= fill_pattern tg c < 2 ^ (8 * POINTER_SIZE tg)).
  { rewrite H1. pose proof (byte_ones_bound tg) as Ho.
    assert (0 < byte_ones tg) by (destruct tg; reflexivity). nia. }
  split; [exact H1|]. split; [now rewrite H1, H2|]. split; [exact Hr|].
  unfold UIntNative. apply Z.mod_small. exact Hr.
Qed.

(* ================================================================== *)
(** * Further properties: zeroing *)

Lemma byte_of_zero i : byte_of 0 i = 0.
Proof. unfold byte_of. now rewrite Z.shiftr_0_l. Qed.

Lemma GCSafeZeroMemory_run tg dest len b st :
  GCSafeZeroMemory tg dest len b st
  = Ret tt (InlineGCSafeFillMemory tg dest len 0 st).
Proof. reflexivity. Qed.



(** X3.  Filling through [RhpInitMultibyte] with an argument whose low byte
    is zero is zeroing through [GCSafeZeroMemory]: on a non-null range the
    two entry points leave the very same state (memory and log). *)
Theorem RhpInitMultibyte_zero_is_GCSafeZeroMemory tg b mem c size st :
  c mod 256 = 0 ->
  mem <> nullptr ->
  exists st',
    RhpInitMultibyte tg mem c size b st = Ret mem st'
    /\ GCSafeZeroMemory tg mem size b st = Ret tt st'.
Proof.
  intros Hc Hm. eexists. split; [apply RhpInitMultibyte_run; auto|].
  rewrite GCSafeZeroMemory_run.
  assert (Hp : fill_pattern tg c = 0).
  { unfold fill_pattern. cbv zeta. rewrite UIntNative_UInt8.
    unfold UInt8. change (2 ^ 8) with 256. now rewrite Hc. }
  now rewrite Hp.
Qed.

Lemma RhpInitMultibyte_zero_is_GCSafeZeroMemory_witness :
  512 mod 256 = 0 /\ 4097 <> nullptr
  /\ exists st',
       RhpInitMultibyte Target32 4097 512 9 Debug sample_state = Ret 4097 st'
       /\ GCSafeZeroMemory Target32 4097 9 Debug sample_state = Ret tt st'.
Proof.
  split; [reflexivity|]. split; [discriminate|].
  apply (RhpInitMultibyte_zero_is_GCSafeZeroMemory
           Target32 Debug 4097 512 9 sample_state);
    [reflexivity | discriminate].
Defined.

(** X4.  Zeroing a range in two adjacent pieces leaves the memory of zeroing
    it in one call. *)
Theorem GCSafeZeroMemory_split tg b dest n m st :
  0 <= n -> 0 <= m ->
  exists st1 st2 st12,
    GCSafeZeroMemory tg dest n b st = Ret tt st1
    /\ GCSafeZeroMemory tg (dest + n) m b st1 = Ret tt st2
    /\ GCSafeZeroMemory tg dest (n + m) b st = Ret tt st12
    /\ forall x, mem_of st2 x = mem_of st12 x.
Proof.
  intros Hn Hm. do 3 eexists.
  split; [apply GCSafeZeroMemory_run|].
  split; [apply GCSafeZeroMemory_run|].
  split; [apply GCSafeZeroMemory_run|].
  intros x.
  rewrite !(InlineGCSafeFillMemory_mem tg _ _ 0 0)
    by (auto using byte_of_zero; lia).
  destruct (Z_lt_ge_dec x dest); [now range_test|].
  destruct (Z_lt_ge_dec x (dest + n)); [now range_test|].
  destruct (Z_lt_ge_dec x (dest + n + m)); now range_test.
Qed.

Lemma GCSafeZeroMemory_split_witness :
  0 <= 5 /\ 0 <= 11
  /\ exists st1 st2 st12,
       GCSafeZeroMemory Target64 4099 5 Release sample_state = Ret tt st1
       /\ GCSafeZeroMemory Target64 (4099 + 5) 11 Release st1 = Ret tt st2
       /\ GCSafeZeroMemory Target64 4099 (5 + 11) Release sample_state
          = Ret tt st12
       /\ forall x, mem_of st2 x = mem_of st12 x.
Proof.
  split; [lia|]. split; [lia|].
  apply (GCSafeZeroMemory_split Target64 Release 4099 5 11 sample_state); lia.
Defined.

(* ================================================================== *)
(** * Further properties: the copies *)

(** X5.  On non-null pointers, for every length and every placement in
    which the destination does not start inside the source (destination at
    or below the source, or the ranges disjoint), [memcpyGCRefs] returns
    [dest], leaves in the destination the bytes the source held, leaves
    every byte outside the destination as it was, and does not notify the
    recorder: the barrier is the caller's. *)
Theorem memcpyGCRefs_copies tg b dest src len st :
  dest <> nullptr -> src <> nullptr ->
  0 <= len ->
  dest <= src \/ src + len <= dest ->
  exists st' evs,
    memcpyGCRefs tg dest src len b st = Ret dest st'
    /\ (forall i, 0 <= i < len -> mem_of st' (dest + i) = mem_of st (src + i))
    /\ (forall x, x < dest \/ dest + len <= x -> mem_of st' x = mem_of st x)
    /\ log_of st' = log_of st ++ evs
    /\ notified evs = [].
Proof.
  intros Hd Hs Hl Hp.
  destruct (InlineForwardGCSafeCopy_log tg dest src len st)
    as (evs & H1 & H2 & _).
  exists (InlineForwardGCSafeCopy tg dest src len st), evs.
  split; [apply memcpyGCRefs_run; auto|].
  split; [|split; [|split]].
  - intros i Hi. rewrite InlineForwardGCSafeCopy_mem by assumption.
    range_test. f_equal. lia.
  - intros x Hx. rewrite InlineForwardGCSafeCopy_mem by assumption.
    now range_test.
  - exact H1.
  - now apply notified_only_stores.
Qed.

Lemma memcpyGCRefs_copies_witness :
  4096 <> nullptr /\ 4104 <> nullptr /\ 0 <= 24
  /\ (4096 <= 4104 \/ 4104 + 24 <= 4096)
  /\ exists st' evs,
       memcpyGCRefs Target64 4096 4104 24 Debug sample_state = Ret 4096 st'
       /\ (forall i, 0 <= i < 24 ->
                     mem_of st' (4096 + i) = mem_of sample_state (4104 + i))
       /\ (forall x, x < 4096 \/ 4096 + 24 <= x ->
                     mem_of st' x = mem_of sample_state x)
       /\ log_of st' = log_of sample_state ++ evs
       /\ notified evs = [].
Proof.
  split; [discriminate|]. split; [discriminate|]. split; [lia|].
  split; [lia|].
  apply (memcpyGCRefs_copies Target64 Debug 4096 4104 24 sample_state);
    [discriminate | discriminate | lia | lia].
Defined.

(** X6.  [GCSafeCopyMemoryWithWriteBarrier] holds no assertion and returns
    in either build.  When the destination does not start inside the source
    it leaves in the destination the bytes the source held and every other
    byte as it was, and it notifies the recorder once, of the destination
    start with the length as [UInt32].  On non-null pointers
    [memcpyGCRefsWithWriteBarrier] leaves the very same state. *)
Theorem GCSafeCopyMemoryWithWriteBarrier_copies tg b dest src len st :
  0 <= len ->
  dest <= src \/ src + len <= dest ->
  exists st' evs,
    GCSafeCopyMemoryWithWriteBarrier tg dest src len b st = Ret tt st'
    /\ (forall i, 0 <= i < len -> mem_of st' (dest + i) = mem_of st (src + i))
    /\ (forall x, x < dest \/ dest + len <= x -> mem_of st' x = mem_of st x)
    /\ log_of st' = log_of st ++ evs
    /\ notified evs = [(dest, UInt32 len)]
    /\ (dest <> nullptr -> src <> nullptr ->
        memcpyGCRefsWithWriteBarrier tg dest src len b st = Ret dest st').
Proof.
  intros Hl Hp.
  destruct (InlineForwardGCSafeCopy_log tg dest src len st)
    as (evs & H1 & H2 & _).
  exists (InlinedBulkWriteBarrier dest (UInt32 len)
            (InlineForwardGCSafeCopy tg dest src len st)),
         (evs ++ [Notify dest (UInt32 len)]).
  split; [apply GCSafeCopyMemoryWithWriteBarrier_run|].
  cbn [InlinedBulkWriteBarrier mem_of log_of].
  split; [|split; [|split; [|split]]].
  - intros i Hi. rewrite InlineForwardGCSafeCopy_mem by assumption.
    range_test. f_equal. lia.
  - intros x Hx. rewrite InlineForwardGCSafeCopy_mem by assumption.
    now range_test.
  - now rewrite H1, app_assoc.
  - rewrite notified_app, (notified_only_stores evs H2). reflexivity.
  - intros Hd Hs. apply memcpyGCRefsWithWriteBarrier_run. auto.
Qed.

Lemma GCSafeCopyMemoryWithWriteBarrier_copies_witness :
  0 <= 20 /\ (8192 <= 4096 \/ 4096 + 20 <= 8192)
  /\ exists st' evs,
       GCSafeCopyMemoryWithWriteBarrier Target32 8192 4096 20 Debug sample_state
       = Ret tt st'
       /\ (forall i, 0 <= i < 20 ->
                     mem_of st' (8192 + i) = mem_of sample_state (4096 + i))
       /\ (forall x, x < 8192 \/ 8192 + 20 <= x ->
                     mem_of st' x = mem_of sample_state x)
       /\ log_of st' = log_of sample_state ++ evs
       /\ notified evs = [(8192, UInt32 20)]
       /\ (8192 <> nullptr -> 4096 <> nullptr ->
           memcpyGCRefsWithWriteBarrier Target32 8192 4096 20 Debug sample_state
           = Ret 8192 st').
Proof.
  split; [lia|]. split; [lia|].
  apply (GCSafeCopyMemoryWithWriteBarrier_copies
           Target32 Debug 8192 4096 20 sample_state); lia.
Defined.

(* ================================================================== *)
(** * Further properties: the move *)

(** X7.  When the destination does not start inside the source, so that the
    move copies forward, [RhBulkMoveWithWriteBarrier] leaves the very same
    state (memory and log) as [GCSafeCopyMemoryWithWriteBarrier], and, on
    non-null pointers, as [memcpyGCRefsWithWriteBarrier]. *)
Theorem RhBulkMoveWithWriteBarrier_forward_is_copy tg b pDest pSrc cbDest st :
  0 <= cbDest <= INT_MAX ->
  pDest <= pSrc \/ pSrc + cbDest <= pDest ->
  exists st',
    RhBulkMoveWithWriteBarrier tg pDest pSrc cbDest b st = Ret tt st'
    /\ GCSafeCopyMemoryWithWriteBarrier tg pDest pSrc cbDest b st = Ret tt st'
    /\ (pDest <> nullptr -> pSrc <> nullptr ->
        memcpyGCRefsWithWriteBarrier tg pDest pSrc cbDest b st
        = Ret pDest st').
Proof.
  intros Hn Hp. eexists.
  split; [apply RhBulkMoveWithWriteBarrier_run|].
  apply move_direction_forward in Hp.
  unfold move_copy. rewrite Hp, size_t_int by assumption.
  split; [apply GCSafeCopyMemoryWithWriteBarrier_run|].
  intros Hd Hs. apply memcpyGCRefsWithWriteBarrier_run. auto.
Qed.

Lemma RhBulkMoveWithWriteBarrier_forward_is_copy_witness :
  0 <= 16 <= INT_MAX /\ (4096 <= 4100 \/ 4100 + 16 <= 4096)
  /\ exists st',
       RhBulkMoveWithWriteBarrier Target64 4096 4100 16 Debug sample_state
       = Ret tt st'
       /\ GCSafeCopyMemoryWithWriteBarrier Target64 4096 4100 16 Debug
            sample_state = Ret tt st'
       /\ (4096 <> nullptr -> 4100 <> nullptr ->
           memcpyGCRefsWithWriteBarrier Target64 4096 4100 16 Debug sample_state
           = Ret 4096 st').
Proof.
  split; [unfold INT_MAX; lia|]. split; [lia|].
  apply (RhBulkMoveWithWriteBarrier_forward_is_copy
           Target64 Debug 4096 4100 16 sample_state);
    [unfold INT_MAX; lia | lia].
Defined.

(** X8.  Moving a block and moving it back restores the source: after
    [RhBulkMoveWithWriteBarrier (pDest, pSrc, n)] followed by
    [RhBulkMoveWithWriteBarrier (pSrc, pDest, n)], every byte of the source
    range holds what it held at the start, however the two ranges overlap,
    and so does every byte outside the two ranges. *)
Theorem RhBulkMoveWithWriteBarrier_round_trip tg b pDest pSrc cbDest st :
  0 <= cbDest <= INT_MAX ->
  exists st1 st2,
    RhBulkMoveWithWriteBarrier tg pDest pSrc cbDest b st = Ret tt st1
    /\ RhBulkMoveWithWriteBarrier tg pSrc pDest cbDest b st1 = Ret tt st2
    /\ (forall i, 0 <= i < cbDest ->
                  mem_of st2 (pSrc + i) = mem_of st (pSrc + i))
    /\ (forall x, (x < pDest \/ pDest + cbDest <= x) ->
                  (x < pSrc \/ pSrc + cbDest <= x) ->
                  mem_of st2 x = mem_of st x).
Proof.
  intros Hn. do 2 eexists.
  split; [apply RhBulkMoveWithWriteBarrier_run|].
  split; [apply RhBulkMoveWithWriteBarrier_run|].
  cbn [InlinedBulkWriteBarrier mem_of]. split.
  - intros i Hi. rewrite move_copy_mem by assumption. range_test.
    cbn [InlinedBulkWriteBarrier mem_of].
    rewrite move_copy_mem by assumption. range_test. f_equal. lia.
  - intros x Hd Hs. rewrite move_copy_mem by assumption. range_test.
    cbn [InlinedBulkWriteBarrier mem_of].
    rewrite move_copy_mem by assumption. now range_test.
Qed.

Lemma RhBulkMoveWithWriteBarrier_round_trip_witness :
  0 <= 24 <= INT_MAX
  /\ exists st1 st2,
       RhBulkMoveWithWriteBarrier Target64 4104 4096 24 Debug sample_state
       = Ret tt st1
       /\ RhBulkMoveWithWriteBarrier Target64 4096 4104 24 Debug st1
          = Ret tt st2
       /\ (forall i, 0 <= i < 24 ->
                     mem_of st2 (4096 + i) = mem_of sample_state (4096 + i))
       /\ (forall x, (x < 4104 \/ 4104 + 24 <= x) ->
                     (x < 4096 \/ 4096 + 24 <= x) ->
                     mem_of st2 x = mem_of sample_state x).
Proof.
  split; [unfold INT_MAX; lia|].
  apply (RhBulkMoveWithWriteBarrier_round_trip
           Target64 Debug 4104 4096 24 sample_state).
  unfold INT_MAX; lia.
Defined.

(** X9.  [RhBulkMoveWithWriteBarrier] writes inside the destination range
    only: every byte outside it, the part of the source the destination
    does not overlap included, is left as it was. *)
Theorem RhBulkMoveWithWriteBarrier_frame tg b pDest pSrc cbDest st :
  0 <= cbDest <= INT_MAX ->
  exists st',
    RhBulkMoveWithWriteBarrier tg pDest pSrc cbDest b st = Ret tt st'
    /\ (forall x, x < pDest \/ pDest + cbDest <= x ->
                  mem_of st' x = mem_of st x)
    /\ (forall i, 0 <= i < cbDest ->
                  pSrc + i < pDest \/ pDest + cbDest <= pSrc + i ->
                  mem_of st' (pSrc + i) = mem_of st (pSrc + i)).
Proof.
  intros Hn. eexists. split; [apply RhBulkMoveWithWriteBarrier_run|].
  cbn [InlinedBulkWriteBarrier mem_of]. split.
  - intros x Hx. rewrite move_copy_mem by assumption. now range_test.
  - intros i Hi Hx. rewrite move_copy_mem by assumption. now range_test.
Qed.

Lemma RhBulkMoveWithWriteBarrier_frame_witness :
  0 <= 16 <= INT_MAX
  /\ exists st',
       RhBulkMoveWithWriteBarrier Target32 4100 4096 16 Release sample_state
       = Ret tt st'
       /\ (forall x, x < 4100 \/ 4100 + 16 <= x ->
                     mem_of st' x = mem_of sample_state x)
       /\ (forall i, 0 <= i < 16 ->
                     4096 + i < 4100 \/ 4100 + 16 <= 4096 + i ->
                     mem_of st' (4096 + i) = mem_of sample_state (4096 + i)).
Proof.
  split; [unfold INT_MAX; lia|].
  apply (RhBulkMoveWithWriteBarrier_frame
           Target32 Release 4100 4096 16 sample_state).
  unfold INT_MAX; lia.
Defined.



(* ================================================================== *)
(** * Further properties: which stores a pass performs *)

Lemma in_run c from width n :
  In c (run from width n) <->
  exists i, (i < Z.to_nat n)%nat /\ c = (from + Z.of_nat i * width, width).
Proof.
  unfold run. rewrite in_map_iff. split.
  - intros (i & <- & Hi). apply in_seq in Hi. exists i. split; [lia | reflexivity].
  - intros (i & Hi & ->). exists i. split; [reflexivity|]. apply in_seq. lia.
Qed.

(** The first word boundary at or above [start] is word-aligned. *)
Lemma next_boundary_aligned w start :
  0 < w -> (start + (w - start mod w) mod w) mod w = 0.
Proof.
  intros Hw. rewrite Z.add_mod_idemp_r by lia.
  replace (start + (w - start mod w)) with ((start / w + 1) * w)
    by (pose proof (Z.div_mod start w); lia).
  apply Z.mod_mul. lia.
Qed.

(** When the middle zone is not empty the leading zone reaches the first
    word boundary. *)
Lemma zoning_lead_aligned tg start size :
  0 <= size ->
  0 < words (zoning tg start size) ->
  (start + lead (zoning tg start size)) mod POINTER_SIZE tg = 0.
Proof.
  intros Hs Hwords. pose proof (POINTER_SIZE_pos tg) as Hw.
  pose proof (zoning_lead_bounds tg start size Hs) as Hl.
  simpl in *.
  set (L := (POINTER_SIZE tg - start mod POINTER_SIZE tg) mod POINTER_SIZE tg)
    in *.
  destruct (Z_lt_ge_dec (size - Z.min size L) (POINTER_SIZE tg)) as [Hlt|Hge].
  - rewrite Z.div_small in Hwords by lia. lia.
  - replace (Z.min size L) with L by lia.
    apply next_boundary_aligned. assumption.
Qed.

(** Every access of a pass is a byte or a whole word at an aligned
    address. *)
Lemma chunks_discipline tg start size :
  0 <= size ->
  Forall (fun c => snd c = 1
                   \/ (snd c = POINTER_SIZE tg
                       /\ (start + fst c) mod POINTER_SIZE tg = 0))
         (chunks tg start size).
Proof.
  intros Hs. pose proof (POINTER_SIZE_pos tg) as Hw.
  unfold chunks. cbv zeta. rewrite !Forall_app. repeat split.
  - eapply Forall_impl; [|apply run_width]. simpl. auto.
  - apply Forall_forall. intros c Hc. apply in_run in Hc.
    destruct Hc as (i & Hi & ->). right. cbn [fst snd]. split; [reflexivity|].
    assert (Hpos : 0 < words (zoning tg start size)) by lia.
    pose proof (zoning_lead_aligned tg start size Hs Hpos) as Ha.
    rewrite Z.add_assoc, Z.mod_add by lia. exact Ha.
  - eapply Forall_impl; [|apply run_width]. simpl. auto.
Qed.

(** Every aligned word inside the range is one access of the pass. *)
Lemma chunks_whole_words tg start size a :
  0 <= size ->
  a mod POINTER_SIZE tg = 0 ->
  start <= a -> a + POINTER_SIZE tg <= start + size ->
  In (a - start, POINTER_SIZE tg) (chunks tg start size).
Proof.
  intros Hs Ha Hlo Hhi. pose proof (POINTER_SIZE_pos tg) as Hw.
  set (w := POINTER_SIZE tg) in *.
  set (L := (w - start mod w) mod w).
  assert (HL : 0 <= L < w) by (apply Z.mod_pos_bound; assumption).
  pose proof (next_boundary_aligned w start Hw) as Hb. fold L in Hb.
  assert (Ea : a = w * (a / w))
    by (pose proof (Z.div_mod a w); lia).
  assert (Eb : start + L = w * ((start + L) / w))
    by (pose proof (Z.div_mod (start + L) w); lia).
  set (qa := a / w) in *. set (qb := (start + L) / w) in *.
  assert (Hq : qb <= qa) by nia.
  assert (Hlead : lead (zoning tg start size) = L).
  { simpl. fold w. fold L. nia. }
  assert (Hwords : words (zoning tg start size) = (size - L) / w).
  { simpl. fold w. fold L. replace (Z.min size L) with L by nia. reflexivity. }
  assert (Hj : qa - qb + 1 <= (size - L) / w).
  { apply Z.div_le_lower_bound; [assumption|]. nia. }
  unfold chunks. cbv zeta. apply in_or_app. right. apply in_or_app. left.
  apply in_run. exists (Z.to_nat (qa - qb)). split.
  - rewrite Hwords. lia.
  - rewrite Hlead. fold w. f_equal. rewrite Z2Nat.id by lia. nia.
Qed.

(** A loop whose every iteration is one store logs one event per access, in
    the order of the accesses. *)
Lemma fold_store_matches (f : State -> Z * Z -> State) (base : Z) :
  (forall st c, exists bs,
      f st c = store (base + fst c) bs st /\ length bs = Z.to_nat (snd c)) ->
  forall cs st,
  exists evs,
    log_of (fold_left f cs st) = log_of st ++ evs
    /\ Forall2 (store_matches base) cs evs.
Proof.
  intros Hf. induction cs as [|c cs IH]; intros st; simpl.
  - exists []. rewrite app_nil_r. split; constructor.
  - destruct (Hf st c) as (bs & E & Hb).
    destruct (IH (f st c)) as (evs & Hl & Hm).
    exists (Store (base + fst c) bs :: evs). rewrite Hl, E. simpl.
    rewrite <- app_assoc. split; [reflexivity|].
    constructor; [|assumption]. exists bs. auto.
Qed.

Lemma matches_safe tg base cs evs :
  Forall2 (store_matches base) cs evs ->
  Forall (fun c => snd c = 1
                   \/ (snd c = POINTER_SIZE tg
                       /\ (base + fst c) mod POINTER_SIZE tg = 0)) cs ->
  forallb (gc_safe_store tg) evs = true.
Proof.
  induction 1 as [|c e cs evs (bs & -> & Hb) Hm IH]; intros Hc;
    [reflexivity|].
  inversion Hc as [|c' cs' Hc1 Hc2]; subst.
  simpl. rewrite (IH Hc2), andb_true_r.
  pose proof (POINTER_SIZE_pos tg) as Hw.
  destruct Hc1 as [H1 | [H1 H2]]; rewrite H1 in Hb.
  - rewrite Hb. reflexivity.
  - apply orb_true_iff. right. apply andb_true_iff. split.
    + apply Z.eqb_eq. lia.
    + apply Z.eqb_eq. exact H2.
Qed.

Lemma matches_in base cs evs c :
  Forall2 (store_matches base) cs evs ->
  In c cs -> exists e, In e evs /\ store_matches base c e.
Proof.
  induction 1 as [|c' e cs evs Hce Hm IH]; intros Hin; [contradiction|].
  destruct Hin as [-> | Hin].
  - exists e. split; [now left | assumption].
  - destruct (IH Hin) as (e' & He & Hc). exists e'. split; [now right | assumption].
Qed.

(** One pass over a range, low to high or high to low, followed by any
    number of notifications. *)
Lemma pass_stores_whole_words {A : Type} (r : A) tg
  (f : State -> Z * Z -> State) base size cs (tail : State -> State) ns st :
  (forall st c, exists bs,
      f st c = store (base + fst c) bs st /\ length bs = Z.to_nat (snd c)) ->
  0 <= size ->
  cs = chunks tg base size \/ cs = rev (chunks tg base size) ->
  (forall s, log_of (tail s) = log_of s ++ ns) ->
  forallb (gc_safe_store tg) ns = true ->
  stores_whole_words tg st (Ret r (tail (fold_left f cs st))) base size.
Proof.
  intros Hf Hs Hcs Htail Hns.
  destruct (fold_store_matches f base Hf cs st) as (evs & Hl & Hm).
  assert (Hall : Forall (fun c => snd c = 1
                   \/ (snd c = POINTER_SIZE tg
                       /\ (base + fst c) mod POINTER_SIZE tg = 0)) cs).
  { destruct Hcs as [-> | ->]; [|apply Forall_rev];
      now apply chunks_discipline. }
  exists r, (tail (fold_left f cs st)), (evs ++ ns).
  split; [reflexivity|]. split; [now rewrite Htail, Hl, app_assoc|]. split.
  - rewrite forallb_app, (matches_safe tg base cs evs Hm Hall), Hns.
    reflexivity.
  - intros a Ha Hlo Hhi.
    assert (Hin : In (a - base, POINTER_SIZE tg) cs).
    { destruct Hcs as [-> | ->]; [|apply -> in_rev];
        now apply chunks_whole_words. }
    destruct (matches_in base cs evs _ Hm Hin) as (e & He & bs & -> & Hb).
    cbn [fst snd] in Hb. exists bs. split.
    + apply in_or_app. left.
      replace a with (base + (a - base)) at 1 by lia. exact He.
    + pose proof (POINTER_SIZE_pos tg). lia.
Qed.

Lemma tail_none s : log_of ((fun x : State => x) s) = log_of s ++ [].
Proof. now rewrite app_nil_r. Qed.

Lemma tail_barrier start size s :
  log_of (InlinedBulkWriteBarrier start size s)
  = log_of s ++ [Notify start size].
Proof. reflexivity. Qed.



(** X12.  The same holds on the destination side of the forward copies,
    for every destination, aligned or not: each store of [memcpyGCRefs],
    [memcpyGCRefsWithWriteBarrier] and [GCSafeCopyMemoryWithWriteBarrier] is
    one byte or one whole word at a word-aligned address, and every aligned
    word inside the destination range is written by a word-sized store. *)
Theorem copy_stores_whole_words tg b dest src len st :
  dest <> nullptr -> src <> nullptr ->
  0 <= len ->
  stores_whole_words tg st (memcpyGCRefs tg dest src len b st) dest len
  /\ stores_whole_words tg st
       (memcpyGCRefsWithWriteBarrier tg dest src len b st) dest len
  /\ stores_whole_words tg st
       (GCSafeCopyMemoryWithWriteBarrier tg dest src len b st) dest len.
Proof.
  intros Hd Hs Hl. split; [|split].
  - rewrite memcpyGCRefs_run by auto.
    apply (pass_stores_whole_words dest tg (copy_chunk dest src)
             dest len _ (fun x => x) [] st);
      auto using copy_chunk_width, tail_none.
  - rewrite memcpyGCRefsWithWriteBarrier_run by auto.
    apply (pass_stores_whole_words dest tg (copy_chunk dest src)
             dest len _ (InlinedBulkWriteBarrier dest (UInt32 len))
             [Notify dest (UInt32 len)] st);
      auto using copy_chunk_width, tail_barrier.
  - rewrite GCSafeCopyMemoryWithWriteBarrier_run.
    apply (pass_stores_whole_words tt tg (copy_chunk dest src)
             dest len _ (InlinedBulkWriteBarrier dest (UInt32 len))
             [Notify dest (UInt32 len)] st);
      auto using copy_chunk_width, tail_barrier.
Qed.

Lemma copy_stores_whole_words_witness :
  4099 <> nullptr /\ 8192 <> nullptr /\ 0 <= 21
  /\ stores_whole_words Target32 sample_state
       (memcpyGCRefs Target32 4099 8192 21 Debug sample_state) 4099 21
  /\ stores_whole_words Target32 sample_state
       (memcpyGCRefsWithWriteBarrier Target32 4099 8192 21 Debug sample_state)
       4099 21
  /\ stores_whole_words Target32 sample_state
       (GCSafeCopyMemoryWithWriteBarrier Target32 4099 8192 21 Debug
          sample_state) 4099 21.
Proof.
  split; [discriminate|]. split; [discriminate|]. split; [lia|].
  apply (copy_stores_whole_words Target32 Debug 4099 8192 21 sample_state);
    [discriminate | discriminate | lia].
Defined.

(** X13.  In both directions of [RhBulkMoveWithWriteBarrier], for every
    non-negative length and every placement, each store is one byte or one
    whole word at a word-aligned address, and every aligned word inside the
    destination range is written by a word-sized store. *)
Theorem move_stores_whole_words tg b pDest pSrc cbDest st :
  0 <= cbDest <= INT_MAX ->
  stores_whole_words tg st
    (RhBulkMoveWithWriteBarrier tg pDest pSrc cbDest b st) pDest cbDest.
Proof.
  intros Hn. rewrite RhBulkMoveWithWriteBarrier_run.
  unfold move_copy. rewrite size_t_int by assumption.
  destruct (move_direction pDest pSrc cbDest).
  - apply (pass_stores_whole_words tt tg (copy_chunk pDest pSrc)
             pDest cbDest _ (InlinedBulkWriteBarrier pDest (UInt32 cbDest))
             [Notify pDest (UInt32 cbDest)] st);
      auto using copy_chunk_width, tail_barrier; lia.
  - apply (pass_stores_whole_words tt tg (copy_chunk pDest pSrc)
             pDest cbDest _ (InlinedBulkWriteBarrier pDest (UInt32 cbDest))
             [Notify pDest (UInt32 cbDest)] st);
      auto using copy_chunk_width, tail_barrier; lia.
Qed.

Lemma move_stores_whole_words_witness :
  0 <= 27 <= INT_MAX
  /\ stores_whole_words Target64 sample_state
       (RhBulkMoveWithWriteBarrier Target64 4101 4096 27 Debug sample_state)
       4101 27.
Proof.
  split; [unfold INT_MAX; lia|].
  apply (move_stores_whole_words Target64 Debug 4101 4096 27 sample_state).
  unfold INT_MAX; lia.
Defined.

(* ================================================================== *)
(** * Further properties: how many stores a pass performs *)

Lemma run_length from width n : length (run from width n) = Z.to_nat n.
Proof. unfold run. now rewrite length_map, length_seq. Qed.

Lemma chunks_length tg start size :
  0 <= size ->
  Z.of_nat (length (chunks tg start size))
  <= size / POINTER_SIZE tg + 2 * (POINTER_SIZE tg - 1).
Proof.
  intros Hs. pose proof (POINTER_SIZE_pos tg) as Hw.
  pose proof (zoning_lead_bounds tg start size Hs) as Hl.
  unfold chunks. cbv zeta. rewrite !length_app, !run_length.
  set (z := zoning tg start size) in *.
  assert (Hlead : lead z < POINTER_SIZE tg).
  { subst z. simpl.
    pose proof (Z.mod_pos_bound
                  (POINTER_SIZE tg - start mod POINTER_SIZE tg) _ Hw). lia. }
  assert (Hwords : 0 <= words z <= size / POINTER_SIZE tg).
  { subst z. simpl in *. split.
    - apply Z.div_pos; lia.
    - apply Z.div_le_mono; lia. }
  assert (Htrail : 0 <= trail z < POINTER_SIZE tg).
  { subst z. simpl. apply Z.mod_pos_bound. assumption. }
  lia.
Qed.

(** X14.  The fill and the forward copy store in word-sized pieces wherever
    they can: on a range of [size] bytes, whatever its alignment, they
    perform at most [size / POINTER_SIZE] stores plus [POINTER_SIZE - 1]
    bytewise stores at each end, and nothing but stores. *)
Theorem fill_and_copy_store_count tg b dest src c size st :
  dest <> nullptr -> src <> nullptr ->
  0 <= size ->
  (exists st' evs,
     RhpInitMultibyte tg dest c size b st = Ret dest st'
     /\ log_of st' = log_of st ++ evs
     /\ forallb is_store evs = true
     /\ Z.of_nat (length evs)
        <= size / POINTER_SIZE tg + 2 * (POINTER_SIZE tg - 1))
  /\ (exists st' evs,
        memcpyGCRefs tg dest src size b st = Ret dest st'
        /\ log_of st' = log_of st ++ evs
        /\ forallb is_store evs = true
        /\ Z.of_nat (length evs)
           <= size / POINTER_SIZE tg + 2 * (POINTER_SIZE tg - 1)).
Proof.
  intros Hd Hs Hl. split.
  - destruct (InlineGCSafeFillMemory_log tg dest size (fill_pattern tg c) st)
      as (evs & H1 & H2 & H3 & _).
    exists (InlineGCSafeFillMemory tg dest size (fill_pattern tg c) st), evs.
    split; [apply RhpInitMultibyte_run; auto|].
    repeat split; auto. rewrite H3. now apply chunks_length.
  - destruct (InlineForwardGCSafeCopy_log tg dest src size st)
      as (evs & H1 & H2 & H3 & _).
    exists (InlineForwardGCSafeCopy tg dest src size st), evs.
    split; [apply memcpyGCRefs_run; auto|].
    repeat split; auto. rewrite H3. now apply chunks_length.
Qed.

Lemma fill_and_copy_store_count_witness :
  4093 <> nullptr /\ 8192 <> nullptr /\ 0 <= 30
  /\ exists st' evs,
       RhpInitMultibyte Target64 4093 1 30 Debug sample_state = Ret 4093 st'
       /\ log_of st' = log_of sample_state ++ evs
       /\ forallb is_store evs = true
       /\ Z.of_nat (length evs)
          <= 30 / POINTER_SIZE Target64 + 2 * (POINTER_SIZE Target64 - 1).
Proof.
  split; [discriminate|]. split; [discriminate|]. split; [lia|].
  assert (H1 : 4093 <> nullptr) by discriminate.
  assert (H2 : 8192 <> nullptr) by discriminate.
  assert (H3 : 0 <= 30) by lia.
  exact (proj1 (fill_and_copy_store_count Target64 Debug 4093 8192 1 30
                  sample_state H1 H2 H3)).
Defined.
